(** * iterating.ts: lazy iterator combinators

    A shallow embedding of [src/iterating.ts].

    - An iterator is a state together with a [next] operation (the pull
      contract).  A pull returns an [IteratorResult], may throw, and may fail
      to return at all (a pull of [reverse] first drains its source), so
      [next] is indexed by fuel: [None] means that the fuel did not suffice.
    - A generator function ([function*]) is the state machine of its
      suspension points; its state holds the iterators it owns.
    - JavaScript numbers are modelled by [Z]: the model is that of the code
      on integers for as long as all numbers stay safe integers, where
      double arithmetic is exact (see [isSafeInteger]).
    - Caller-supplied functors are total and pure; the early-break callback
      of [applyOnEachOf]/[reduce] is modelled by a returned flag telling
      whether the callback was invoked during the call. *)

From Stdlib Require Import ZArith Bool String List Lia Arith.
Import ListNotations.

Set Implicit Arguments.
Local Open Scope Z_scope.

(** ** Results of a pull *)

(** [IteratorResult<T>]: [{done: false, value}] or [{done: true}].  The value
    of a done result is never read by the code. *)
Inductive IteratorResult (T : Type) : Type :=
| IterValue (value : T)
| IterDone.
Arguments IterDone {T}.

(** A call completes normally or throws [new Error(message)]. *)
Inductive Completion (A : Type) : Type :=
| Normal (a : A)
| Throw (message : string).
Arguments Throw {A} message.

(** Outcome of running a call on an iterator state of type [It]:
    [None] when the fuel ran out, otherwise the completion and the state the
    iterator is left in. *)
Definition Run (It A : Type) : Type := option (Completion A * It).

(** The interface [Iterator<T>]. *)
Class Iterator (It T : Type) : Type :=
  next : nat -> It -> Run It (IteratorResult T).

(** [result => !result.done] (zip, line 21). *)
Definition resultHasNext {T : Type} (result : IteratorResult T) : bool :=
  match result with
  | IterValue _ => true
  | IterDone => false
  end.

(** ** Array iterators: [array.values()] *)

Record ArrayIterator (T : Type) : Type := mkArrayIterator {
  array : list T;
  index : nat
}.

Definition values {T : Type} (a : list T) : ArrayIterator T :=
  {| array := a; index := 0 |}.

#[export] Instance ArrayIterator_next {T : Type} : Iterator (ArrayIterator T) T :=
  fun _ it =>
    match nth_error (array it) (index it) with
    | Some v => Some (Normal (IterValue v), {| array := array it; index := S (index it) |})
    | None => Some (Normal IterDone, it)
    end.

(** ** [IterableIteratorWrapper] and [wrapWithIterable] (lines 98-117) *)

Record IterableIteratorWrapper (It : Type) : Type := mkWrapper {
  wrapped_iterator : It
}.

#[export] Instance IterableIteratorWrapper_next {It T : Type} `{Iterator It T} :
  Iterator (IterableIteratorWrapper It) T :=
  fun fuel w =>
    match next fuel (wrapped_iterator w) with
    | None => None
    | Some (c, s') => Some (c, {| wrapped_iterator := s' |})
    end.

Definition wrapWithIterable {It : Type} (iterator : It) : IterableIteratorWrapper It :=
  {| wrapped_iterator := iterator |}.

Section Consumers.

Context {It T : Type} `{Iterator It T}.

(** One step of [for (const element of wrapWithIterable(iterator))]: the
    wrapper forwards the pull to the iterator it holds. *)
Definition pullWrapped (fuel : nat) (iterator : It) : Run It (IteratorResult T) :=
  match next fuel (wrapWithIterable iterator) with
  | None => None
  | Some (c, w) => Some (c, wrapped_iterator w)
  end.

(** [applyOnEachOf] (lines 146-159).  [E] is the state the functor's closure
    mutates; the functor returns the new state and whether it invoked
    [breakAfterIteration].  The wrapper has no [return] method, so [break]
    leaves the source as it is. *)
Fixpoint applyOnEachOf {E : Type} (fuel : nat) (iterator : It)
    (functor : T -> E -> E * bool) (env : E) : Run It E :=
  match fuel with
  | O => None
  | S k =>
    match pullWrapped k iterator with
    | None => None
    | Some (Throw e, it') => Some (Throw e, it')
    | Some (Normal IterDone, it') => Some (Normal env, it')
    | Some (Normal (IterValue element), it') =>
      let (env', shouldBreakAfterIteration) := functor element env in
      if shouldBreakAfterIteration then Some (Normal env', it')
      else applyOnEachOf k it' functor env'
    end
  end.

(** [reduce] (lines 196-205): the accumulator is the state of the closure
    handed to [applyOnEachOf]. *)
Definition reduce {U : Type} (fuel : nat) (iterator : It)
    (functor : U -> T -> U * bool) (initialValue : U) : Run It U :=
  let applyFunctor := fun element accumulator => functor accumulator element in
  applyOnEachOf fuel iterator applyFunctor initialValue.

(** [checkAllFulfill] (lines 207-221). *)
Definition checkAllFulfill (fuel : nat) (iterator : It) (predicate : T -> bool)
    : Run It bool :=
  let reduceFunctor := fun (accumulator : bool) element =>
    let elementFulfillsPredicate := predicate element in
    (accumulator && elementFulfillsPredicate, negb elementFulfillsPredicate) in
  reduce fuel iterator reduceFunctor true.

(** [checkAnyFulfills] (lines 223-228). *)
Definition checkAnyFulfills (fuel : nat) (iterator : It) (predicate : T -> bool)
    : Run It bool :=
  let negatedPredicate := fun element => negb (predicate element) in
  match checkAllFulfill fuel iterator negatedPredicate with
  | None => None
  | Some (Normal b, it') => Some (Normal (negb b), it')
  | Some (Throw e, it') => Some (Throw e, it')
  end.

(** [spread] (lines 233-235): [[...wrapWithIterable(iterator)]]. *)
Fixpoint spread (fuel : nat) (iterator : It) : Run It (list T) :=
  match fuel with
  | O => None
  | S k =>
    match pullWrapped k iterator with
    | None => None
    | Some (Throw e, it') => Some (Throw e, it')
    | Some (Normal IterDone, it') => Some (Normal [], it')
    | Some (Normal (IterValue element), it') =>
      match spread k it' with
      | None => None
      | Some (Throw e, it'') => Some (Throw e, it'')
      | Some (Normal rest, it'') => Some (Normal (element :: rest), it'')
      end
    end
  end.

End Consumers.

(** ** [zip] (lines 13-33) *)

(** The message of the error [zip] throws (line 26). *)
Definition unequalLengthMessage : string :=
  "some iterators are consumed before others".

(** Generator object of [zip]: the tuple of iterators it pulls from, and
    whether the generator has completed (by ending or by throwing). *)
Record ZipGenerator (It : Type) : Type := mkZip {
  zip_iterators : list It;
  zip_completed : bool
}.

Definition zip {It : Type} (iterators : list It) : ZipGenerator It :=
  {| zip_iterators := iterators; zip_completed := false |}.

Section Zip.

Context {It T : Type} `{Iterator It T}.

(** [iterators.map(i => i.next())] (line 19): one pull from every iterator,
    in the order of the tuple; a pull that throws aborts the map. *)
Fixpoint pullEach (fuel : nat) (iterators : list It)
    : Run (list It) (list (IteratorResult T)) :=
  match iterators with
  | [] => Some (Normal [], [])
  | i :: rest =>
    match next fuel i with
    | None => None
    | Some (Throw e, i') => Some (Throw e, i' :: rest)
    | Some (Normal result, i') =>
      match pullEach fuel rest with
      | None => None
      | Some (Throw e, rest') => Some (Throw e, i' :: rest')
      | Some (Normal results, rest') => Some (Normal (result :: results), i' :: rest')
      end
    end
  end.

(** [results.map(result => result.value)] (line 29).  It is evaluated only
    when no result is done, where it keeps one value per result. *)
Fixpoint resultValues (results : list (IteratorResult T)) : list T :=
  match results with
  | [] => []
  | IterValue value :: rest => value :: resultValues rest
  | IterDone :: rest => resultValues rest
  end.

(** One pull of the generator: one turn of the [do ... while] loop. *)
Definition zip_next (fuel : nat) (g : ZipGenerator It)
    : Run (ZipGenerator It) (IteratorResult (list T)) :=
  if zip_completed g then Some (Normal IterDone, g)
  else
    match pullEach fuel (zip_iterators g) with
    | None => None
    | Some (Throw e, its') =>
      Some (Throw e, {| zip_iterators := its'; zip_completed := true |})
    | Some (Normal results, its') =>
      match checkAnyFulfills fuel (values results) resultHasNext with
      | None => None
      | Some (Throw e, _) =>
        Some (Throw e, {| zip_iterators := its'; zip_completed := true |})
      | Some (Normal someHaveNext, _) =>
        match checkAllFulfill fuel (values results) resultHasNext with
        | None => None
        | Some (Throw e, _) =>
          Some (Throw e, {| zip_iterators := its'; zip_completed := true |})
        | Some (Normal allHaveNext, _) =>
          if someHaveNext && negb allHaveNext then
            Some (Throw unequalLengthMessage,
                  {| zip_iterators := its'; zip_completed := true |})
          else if allHaveNext then
            Some (Normal (IterValue (resultValues results)),
                  {| zip_iterators := its'; zip_completed := false |})
          else
            Some (Normal IterDone,
                  {| zip_iterators := its'; zip_completed := true |})
        end
      end
    end.

#[export] Instance ZipGenerator_next : Iterator (ZipGenerator It) (list T) :=
  zip_next.

End Zip.

(** ** [PeekableIterator] (lines 43-66) *)

Record PeekableIterator (It T : Type) : Type := mkPeekable {
  _iterator : It;
  _nextResult : IteratorResult T
}.

Section Peekable.

Context {It T : Type} `{Iterator It T}.

(** The constructor (lines 48-51).  The state component of the outcome is
    the source after the call; on normal completion the new object holds
    it. *)
Definition newPeekableIterator (fuel : nat) (iterator : It)
    : Run It (PeekableIterator It T) :=
  match next fuel iterator with
  | None => None
  | Some (Throw e, it') => Some (Throw e, it')
  | Some (Normal result, it') =>
    Some (Normal {| _iterator := it'; _nextResult := result |}, it')
  end.

(** [next()] (lines 57-61). *)
Definition peekable_next (fuel : nat) (p : PeekableIterator It T)
    : Run (PeekableIterator It T) (IteratorResult T) :=
  let currentResult := _nextResult p in
  match next fuel (_iterator p) with
  | None => None
  | Some (Throw e, it') =>
    Some (Throw e, {| _iterator := it'; _nextResult := _nextResult p |})
  | Some (Normal result, it') =>
    Some (Normal currentResult, {| _iterator := it'; _nextResult := result |})
  end.

#[export] Instance PeekableIterator_next : Iterator (PeekableIterator It T) T :=
  peekable_next.

(** [peek()] (lines 63-65): the result and the object after the call. *)
Definition peek (p : PeekableIterator It T)
    : IteratorResult T * PeekableIterator It T :=
  (_nextResult p, p).

End Peekable.

(** ** [range] and [repeat] (lines 68-96) *)

(** The numbers of [range] are integers; [i += stepSize] and the tests are
    those of the code as long as [i], [stepSize] and [i + stepSize] are safe
    integers. *)

(** Where the generator of [range] is suspended: before its first pull, at
    [yield i] (line 85) with the current [i], at [yield stop] (line 88), or
    completed. *)
Inductive RangePc : Type :=
| RangeStart
| RangeYieldedI (i : Z)
| RangeYieldedStop
| RangeCompleted.

Record RangeGenerator : Type := mkRange {
  range_start : Z;
  range_stop : Z;
  range_stepSize : Z;
  range_stopIncluded : bool;
  range_pc : RangePc
}.

Definition range (start stop stepSize : Z) (stopIncluded : bool) : RangeGenerator :=
  {| range_start := start; range_stop := stop; range_stepSize := stepSize;
     range_stopIncluded := stopIncluded; range_pc := RangeStart |}.

(** [continuePredicate] (lines 76-83). *)
Definition continuePredicate (isIncreasing : bool) (i stop : Z) : bool :=
  if isIncreasing then i <? stop else i >? stop.

Definition range_at (g : RangeGenerator) (pc : RangePc) : RangeGenerator :=
  {| range_start := range_start g; range_stop := range_stop g;
     range_stepSize := range_stepSize g;
     range_stopIncluded := range_stopIncluded g; range_pc := pc |}.

(** The loop test of line 84 with [i], and what follows the loop. *)
Definition range_test (g : RangeGenerator) (i : Z)
    : Run RangeGenerator (IteratorResult Z) :=
  let isIncreasing := range_stepSize g >? 0 in
  if continuePredicate isIncreasing i (range_stop g) then
    Some (Normal (IterValue i), range_at g (RangeYieldedI i))
  else if range_stopIncluded g then
    Some (Normal (IterValue (range_stop g)), range_at g RangeYieldedStop)
  else
    Some (Normal IterDone, range_at g RangeCompleted).

#[export] Instance RangeGenerator_next : Iterator RangeGenerator Z :=
  fun _ g =>
    match range_pc g with
    | RangeStart => range_test g (range_start g)
    | RangeYieldedI i => range_test g (i + range_stepSize g)
    | RangeYieldedStop => Some (Normal IterDone, range_at g RangeCompleted)
    | RangeCompleted => Some (Normal IterDone, g)
    end.

Record RepeatGenerator (T : Type) : Type := mkRepeat {
  repeat_value : T;
  repeat_range : RangeGenerator;
  repeat_completed : bool
}.

(** [repeat] (lines 92-96): [for (const _ of range(1, times, 1, true))]. *)
Definition repeat {T : Type} (value : T) (times : Z) : RepeatGenerator T :=
  {| repeat_value := value; repeat_range := range 1 times 1 true;
     repeat_completed := false |}.

#[export] Instance RepeatGenerator_next {T : Type} : Iterator (RepeatGenerator T) T :=
  fun fuel g =>
    if repeat_completed g then Some (Normal IterDone, g)
    else
      match next fuel (repeat_range g) with
      | None => None
      | Some (Throw e, r') =>
        Some (Throw e, {| repeat_value := repeat_value g; repeat_range := r';
                          repeat_completed := true |})
      | Some (Normal IterDone, r') =>
        Some (Normal IterDone,
              {| repeat_value := repeat_value g; repeat_range := r';
                 repeat_completed := true |})
      | Some (Normal (IterValue _), r') =>
        Some (Normal (IterValue (repeat_value g)),
              {| repeat_value := repeat_value g; repeat_range := r';
                 repeat_completed := false |})
      end.

(** ** [map] (lines 119-125) *)

Record MapGenerator (It T U : Type) : Type := mkMap {
  map_iterator : It;
  map_functor : T -> U;
  map_completed : bool
}.

Definition map {It T U : Type} (iterator : It) (functor : T -> U)
    : MapGenerator It T U :=
  {| map_iterator := iterator; map_functor := functor; map_completed := false |}.

#[export] Instance MapGenerator_next {It T U : Type} `{Iterator It T} :
  Iterator (MapGenerator It T U) U :=
  fun fuel g =>
    if map_completed g then Some (Normal IterDone, g)
    else
      match pullWrapped fuel (map_iterator g) with
      | None => None
      | Some (Throw e, it') =>
        Some (Throw e, {| map_iterator := it'; map_functor := map_functor g;
                          map_completed := true |})
      | Some (Normal IterDone, it') =>
        Some (Normal IterDone,
              {| map_iterator := it'; map_functor := map_functor g;
                 map_completed := true |})
      | Some (Normal (IterValue element), it') =>
        Some (Normal (IterValue (map_functor g element)),
              {| map_iterator := it'; map_functor := map_functor g;
                 map_completed := false |})
      end.

(** ** [reverse] (lines 136-143) *)

(** [sequence.pop()]: the last element, if any, and the array without it. *)
Definition pop {T : Type} (sequence : list T) : option T * list T :=
  match List.rev sequence with
  | [] => (None, [])
  | last :: front => (Some last, List.rev front)
  end.

(** Where the generator of [reverse] is suspended: before its first pull
    (the source is not drained yet), at [yield] inside the loop with what is
    left of [sequence], or completed. *)
Inductive ReversePc (T : Type) : Type :=
| ReverseStart
| ReverseYielded (sequence : list T)
| ReverseCompleted.
Arguments ReverseStart {T}.
Arguments ReverseCompleted {T}.

Record ReverseGenerator (It T : Type) : Type := mkReverse {
  reverse_iterator : It;
  reverse_pc : ReversePc T
}.

Definition reverse {It T : Type} `{Iterator It T} (iterator : It)
    : ReverseGenerator It T :=
  {| reverse_iterator := iterator; reverse_pc := ReverseStart |}.

(** The loop of lines 140-142, entered with [sequence]. *)
Definition reverse_loop {It T : Type} (iterator : It) (sequence : list T)
    : Run (ReverseGenerator It T) (IteratorResult T) :=
  if (0 <? List.length sequence)%nat then
    match pop sequence with
    | (Some element, sequence') =>
      Some (Normal (IterValue element),
            {| reverse_iterator := iterator; reverse_pc := ReverseYielded sequence' |})
    | (None, _) =>
      Some (Normal IterDone,
            {| reverse_iterator := iterator; reverse_pc := ReverseCompleted |})
    end
  else
    Some (Normal IterDone,
          {| reverse_iterator := iterator; reverse_pc := ReverseCompleted |}).

#[export] Instance ReverseGenerator_next {It T : Type} `{Iterator It T} :
  Iterator (ReverseGenerator It T) T :=
  fun fuel g =>
    match reverse_pc g with
    | ReverseStart =>
      match spread fuel (reverse_iterator g) with
      | None => None
      | Some (Throw e, it') =>
        Some (Throw e, {| reverse_iterator := it'; reverse_pc := ReverseCompleted |})
      | Some (Normal sequence, it') => reverse_loop it' sequence
      end
    | ReverseYielded sequence => reverse_loop (reverse_iterator g) sequence
    | ReverseCompleted => Some (Normal IterDone, g)
    end.

(** ** [smear] and [sumCumulatively] (lines 164-193) *)

(** [{giveOn: U, yield: V}]. *)
Record SmearResult (U V : Type) : Type := mkSmearResult {
  giveOn : U;
  yield : V
}.

Record SmearGenerator (It T U V : Type) : Type := mkSmear {
  smear_iterator : It;
  smear_functor : U -> T -> SmearResult U V;
  valueToGiveOn : U;
  smear_completed : bool
}.

Definition smear {It T U V : Type} (iterator : It)
    (functor : U -> T -> SmearResult U V) (initialValue : U)
    : SmearGenerator It T U V :=
  {| smear_iterator := iterator; smear_functor := functor;
     valueToGiveOn := initialValue; smear_completed := false |}.

#[export] Instance SmearGenerator_next {It T U V : Type} `{Iterator It T} :
  Iterator (SmearGenerator It T U V) V :=
  fun fuel g =>
    if smear_completed g then Some (Normal IterDone, g)
    else
      match pullWrapped fuel (smear_iterator g) with
      | None => None
      | Some (Throw e, it') =>
        Some (Throw e, {| smear_iterator := it'; smear_functor := smear_functor g;
                          valueToGiveOn := valueToGiveOn g;
                          smear_completed := true |})
      | Some (Normal IterDone, it') =>
        Some (Normal IterDone,
              {| smear_iterator := it'; smear_functor := smear_functor g;
                 valueToGiveOn := valueToGiveOn g; smear_completed := true |})
      | Some (Normal (IterValue element), it') =>
        let result := smear_functor g (valueToGiveOn g) element in
        let valueToYield := yield result in
        Some (Normal (IterValue valueToYield),
              {| smear_iterator := it'; smear_functor := smear_functor g;
                 valueToGiveOn := giveOn result; smear_completed := false |})
      end.

(** The functor of [sumCumulatively] (lines 182-190).  The addition is that
    of the code as long as the operands and the sum are safe integers. *)
Definition sumFunctor (givenOn element : Z) : SmearResult Z Z :=
  let cumulativeSum := givenOn + element in
  {| giveOn := cumulativeSum; yield := cumulativeSum |}.

Definition sumCumulatively {It : Type} (iterator : It) : SmearGenerator It Z Z Z :=
  smear iterator sumFunctor 0.

(** ** Numbers *)

(** JavaScript numbers are doubles.  The model computes with integers, which
    is what the code does as long as every number it is given or computes is
    an integer of magnitude at most [Number.MAX_SAFE_INTEGER = 2^53 - 1]: on
    these, [+], [<] and [>] of doubles are exact.  The statements about
    [range], [repeat] and [sumCumulatively] for arbitrary numbers carry this
    bound; beyond it doubles round, which the model does not describe. *)
Definition MAX_SAFE_INTEGER : Z := 9007199254740991.

(** [Number.isSafeInteger], on integers. *)
Definition isSafeInteger (z : Z) : Prop :=
  - MAX_SAFE_INTEGER <= z <= MAX_SAFE_INTEGER.

(** ** Values of the test scenarios *)

(** A tuple given to [zip] may mix element types; the scenarios of the
    specification use numbers and strings. *)
Inductive JsValue : Type :=
| JsNumber (n : Z)
| JsString (s : string).

(** ** What a run does *)

(** [Returns run a s']: with enough fuel the call completes normally with [a]
    and leaves the iterator in state [s']. *)
Definition Returns {St A : Type} (run : nat -> Run St A) (a : A) (s' : St) : Prop :=
  exists f0, forall fuel, (f0 <= fuel)%nat -> run fuel = Some (Normal a, s').

(** [Raises run e s']: with enough fuel the call throws [e]. *)
Definition Raises {St A : Type} (run : nat -> Run St A) (e : string) (s' : St) : Prop :=
  exists f0, forall fuel, (f0 <= fuel)%nat -> run fuel = Some (Throw e, s').

(** [Diverges run]: no amount of fuel lets the call return. *)
Definition Diverges {St A : Type} (run : nat -> Run St A) : Prop :=
  forall fuel, run fuel = None.

(** [n] consecutive calls of [next()], collecting the results. *)
Fixpoint pullN {It T : Type} `{Iterator It T} (fuel : nat) (n : nat) (it : It)
    : Run It (list (IteratorResult T)) :=
  match n with
  | O => Some (Normal [], it)
  | S m =>
    match next fuel it with
    | None => None
    | Some (Throw e, it') => Some (Throw e, it')
    | Some (Normal result, it') =>
      match pullN fuel m it' with
      | None => None
      | Some (Throw e, it'') => Some (Throw e, it'')
      | Some (Normal results, it'') => Some (Normal (result :: results), it'')
      end
    end
  end.

Section Pulling.

Context {It T : Type} `{Iterator It T}.

(** [Pulls s l s']: pulling [length l] times from [s] gives the values [l],
    in this order, and leaves the iterator in [s']. *)
Inductive Pulls : It -> list T -> It -> Prop :=
| Pulls_nil (s : It) : Pulls s [] s
| Pulls_cons (s : It) (v : T) (s1 : It) (l : list T) (s' : It) :
    Returns (fun fuel => next fuel s) (IterValue v) s1 ->
    Pulls s1 l s' ->
    Pulls s (v :: l) s'.

(** [Drains s l s']: the iterator is finite; it gives the values [l], then
    reports exhaustion, and is left in [s']. *)
Definition Drains (s : It) (l : list T) (s' : It) : Prop :=
  exists s1, Pulls s l s1 /\ Returns (fun fuel => next fuel s1) IterDone s'.

(** What the loop of [applyOnEachOf] does on the elements [l]: the final
    state of the functor's closure, the elements pulled, and whether the
    loop was left by [break]. *)
Fixpoint eachOfList {E : Type} (functor : T -> E -> E * bool) (l : list T)
    (env : E) : E * list T * bool :=
  match l with
  | [] => (env, [], false)
  | x :: rest =>
    let (env', shouldBreak) := functor x env in
    if shouldBreak then (env', [x], true)
    else
      match eachOfList functor rest env' with
      | (e, pulled, broke) => (e, x :: pulled, broke)
      end
  end.

End Pulling.

(** Running sums: the [n]-th entry is the seed plus the first [n] elements. *)
Fixpoint runningSums (givenOn : Z) (l : list Z) : list Z :=
  match l with
  | [] => []
  | x :: rest => (givenOn + x) :: runningSums (givenOn + x) rest
  end.

Definition sumZ (l : list Z) : Z := fold_right Z.add 0 l.

(** The outputs of [smear] on the elements [l], and the carried value. *)
Fixpoint smearOutputs {T U V : Type} (functor : U -> T -> SmearResult U V)
    (givenOn : U) (l : list T) : list V * U :=
  match l with
  | [] => ([], givenOn)
  | x :: rest =>
    let result := functor givenOn x in
    let (outputs, final) := smearOutputs functor (giveOn result) rest in
    (yield result :: outputs, final)
  end.

(** The functor of the scenario:
    [(acc, e, brk) => e > 3 ? (brk(), acc) : acc + e]. *)
Definition sumWhileAtMost3 (acc e : Z) : Z * bool :=
  if e >? 3 then (acc, true) else (acc + e, false).

(** The result of a call with its boolean negated ([!call(...)]). *)
Definition negated {It : Type} (r : Run It bool) : Run It bool :=
  match r with
  | Some (Normal b, s) => Some (Normal (negb b), s)
  | other => other
  end.

(** The generator of [repeat(value, times)] with its [range] suspended at
    [pc]. *)
Definition repeat_at {T : Type} (value : T) (times : Z) (pc : RangePc)
    (completed : bool) : RepeatGenerator T :=
  mkRepeat value (range_at (range 1 times 1 true) pc) completed.

(** ** [IteratorObject] (lines 243-313) *)

Module IteratorObject.

Record t (It : Type) : Type := mk {
  _iterator : It
}.

(** [next()] (lines 251-253). *)
#[global] Instance IteratorObject_next {It T : Type} `{Iterator It T} :
  Iterator (t It) T :=
  fun fuel o =>
    match next fuel (_iterator o) with
    | None => None
    | Some (c, it') => Some (c, {| _iterator := it' |})
    end.

Section Methods.

Context {It T : Type} `{Iterator It T}.

Definition map {U : Type} (o : t It) (functor : T -> U) : t (MapGenerator It T U) :=
  let iterator := map (_iterator o) functor in
  {| _iterator := iterator |}.

Definition reverse (o : t It) : t (ReverseGenerator It T) :=
  let iterator := reverse (_iterator o) in
  {| _iterator := iterator |}.

Definition smear {U V : Type} (o : t It) (functor : U -> T -> SmearResult U V)
    (initialValue : U) : t (SmearGenerator It T U V) :=
  let iterator := smear (_iterator o) functor initialValue in
  {| _iterator := iterator |}.

(** The eager methods run the function on the wrapped iterator; the object
    holds the iterator the call leaves behind. *)
Definition onIterator {A : Type} (r : Run It A) : Run (t It) A :=
  match r with
  | None => None
  | Some (c, it') => Some (c, {| _iterator := it' |})
  end.

Definition apply {E : Type} (fuel : nat) (o : t It)
    (functor : T -> E -> E * bool) (env : E) : Run (t It) E :=
  onIterator (applyOnEachOf fuel (_iterator o) functor env).

Definition reduce {U : Type} (fuel : nat) (o : t It)
    (functor : U -> T -> U * bool) (initialValue : U) : Run (t It) U :=
  onIterator (reduce fuel (_iterator o) functor initialValue).

Definition checkAllFulfill (fuel : nat) (o : t It) (predicate : T -> bool)
    : Run (t It) bool :=
  onIterator (checkAllFulfill fuel (_iterator o) predicate).

Definition checkAnyFulfills (fuel : nat) (o : t It) (predicate : T -> bool)
    : Run (t It) bool :=
  onIterator (checkAnyFulfills fuel (_iterator o) predicate).

Definition spread (fuel : nat) (o : t It) : Run (t It) (list T) :=
  onIterator (spread fuel (_iterator o)).

End Methods.

Definition createZipping {It : Type} (iterators : list It) : t (ZipGenerator It) :=
  let zippingIterator := zip iterators in
  {| _iterator := zippingIterator |}.

Definition createSummingCumulatively {It : Type} (iterator : It)
    : t (SmearGenerator It Z Z Z) :=
  let summingIterator := sumCumulatively iterator in
  {| _iterator := summingIterator |}.

End IteratorObject.

(** ** Sequences the combinators are compared with *)

(** [start, start + stepSize, ...]: the first [n] values of the loop of
    [range]. *)
Definition rangeValues (start stepSize : Z) (n : nat) : list Z :=
  List.map (fun k => start + Z.of_nat k * stepSize) (seq 0 n).

(** How many values the loop of [range] gives for a step that is not zero:
    the distance to [stop] in the direction of the step, divided by the size
    of the step and rounded up. *)
Definition rangeCount (start stop stepSize : Z) : nat :=
  let distance := if stepSize >? 0 then stop - start else start - stop in
  Z.to_nat ((distance + Z.abs stepSize - 1) / Z.abs stepSize).

(** The [j]-th elements of the arrays, in the order of the arrays. *)
Definition tupleAt {T : Type} (arrays : list (list T)) (j : nat) : list T :=
  flat_map (fun a => match nth_error a j with Some v => [v] | None => [] end)
           arrays.

(** Array iterators over [arrays], all at position [j]. *)
Definition iteratorsAt {T : Type} (arrays : list (list T)) (j : nat)
    : list (ArrayIterator T) :=
  List.map (fun a => mkArrayIterator a j) arrays.

(** What an array iterator at position [j] gives, and where it is left. *)
Definition resultAt {T : Type} (j : nat) (a : list T) : IteratorResult T :=
  match nth_error a j with
  | Some v => IterValue v
  | None => IterDone
  end.

Definition advancedAt {T : Type} (j : nat) (a : list T) : ArrayIterator T :=
  match nth_error a j with
  | Some _ => mkArrayIterator a (S j)
  | None => mkArrayIterator a j
  end.

(** [StaysDone g]: every pull of [g] reports exhaustion and leaves [g] as it
    is. *)
Definition StaysDone {It T : Type} `{Iterator It T} (g : It) : Prop :=
  forall fuel, next fuel g = Some (Normal IterDone, g).

(** [Settles]: whenever a pull reports exhaustion or throws, the iterator is
    left in a state that stays done. *)
Definition Settles (It T : Type) `{Iterator It T} : Prop :=
  forall fuel (g g' : It),
    (next fuel g = Some (Normal IterDone, g') \/
     exists e, next fuel g = Some (Throw e, g')) ->
    StaysDone g'.
Arguments Settles It T {_}.

(** * Properties *)

(** ** Runs *)

Lemma Returns_unique {St A : Type} (run : nat -> Run St A) a1 s1 a2 s2 :
  Returns run a1 s1 -> Returns run a2 s2 -> a1 = a2 /\ s1 = s2.
Proof.
  intros [f1 H1] [f2 H2].
  specialize (H1 (Nat.max f1 f2) (Nat.le_max_l _ _)).
  specialize (H2 (Nat.max f1 f2) (Nat.le_max_r _ _)).
  rewrite H1 in H2. inversion H2. auto.
Qed.

Lemma Returns_not_Diverges {St A : Type} (run : nat -> Run St A) a s :
  Returns run a s -> ~ Diverges run.
Proof.
  intros [f0 H0] D. specialize (H0 f0 (Nat.le_refl _)).
  rewrite D in H0. discriminate.
Qed.

Section PullingFacts.

Context {It T : Type} `{Iterator It T}.

Lemma pullWrapped_next fuel (s : It) : pullWrapped fuel s = next fuel s.
Proof.
  unfold pullWrapped, wrapWithIterable, next at 1, IterableIteratorWrapper_next.
  simpl. destruct (next fuel s) as [[c s']|]; reflexivity.
Qed.

Lemma Pulls_app (s s1 s2 : It) l1 l2 :
  Pulls s l1 s1 -> Pulls s1 l2 s2 -> Pulls s (l1 ++ l2) s2.
Proof.
  induction 1; simpl; intros; eauto using Pulls.
Qed.

Lemma Pulls_one (s s1 : It) v :
  Returns (fun fuel => next fuel s) (IterValue v) s1 -> Pulls s [v] s1.
Proof. intros. eauto using Pulls. Qed.

Lemma Pulls_unique (s : It) l s1 s2 :
  Pulls s l s1 -> Pulls s l s2 -> s1 = s2.
Proof.
  intros P. revert s2.
  induction P as [s|s v s1 l s' R P IH]; intros s2 Q; inversion Q; subst; auto.
  match goal with
  | R' : Returns _ (IterValue v) ?s3 |- _ =>
    destruct (Returns_unique R R') as [_ E]; subst s3
  end.
  auto.
Qed.

Lemma Pulls_split (s : It) l1 l2 s2 :
  Pulls s (l1 ++ l2) s2 -> exists s1, Pulls s l1 s1 /\ Pulls s1 l2 s2.
Proof.
  revert s. induction l1 as [|x l1 IH]; simpl; intros s P.
  - exists s. split; [constructor | assumption].
  - inversion P; subst.
    match goal with
    | P' : Pulls _ (l1 ++ l2) s2 |- _ => destruct (IH _ P') as [s3 [P1 P2]]
    end.
    exists s3. split; eauto using Pulls.
Qed.

End PullingFacts.

(** ** Array iterators *)

Lemma skipn_nth_error {T : Type} (l : list T) (i : nat) (v : T) :
  nth_error l i = Some v -> skipn i l = v :: skipn (S i) l.
Proof.
  revert i. induction l as [|x l IH]; intros [|i]; simpl; try discriminate.
  - intros E. inversion E. reflexivity.
  - intros E. apply IH in E. exact E.
Qed.

Lemma Returns_array_value {T : Type} (l : list T) (i : nat) (v : T) :
  nth_error l i = Some v ->
  Returns (fun fuel => next fuel (mkArrayIterator l i)) (IterValue v)
          (mkArrayIterator l (S i)).
Proof.
  intros E. exists O. intros fuel _.
  unfold next, ArrayIterator_next. simpl. rewrite E. reflexivity.
Qed.

Lemma Returns_array_done {T : Type} (l : list T) (i : nat) :
  (List.length l <= i)%nat ->
  Returns (fun fuel => next fuel (mkArrayIterator l i)) IterDone
          (mkArrayIterator l i).
Proof.
  intros L. exists O. intros fuel _.
  unfold next, ArrayIterator_next. simpl.
  apply nth_error_None in L. rewrite L. reflexivity.
Qed.

(** From position [i], an array iterator gives the next [n] elements of the
    array and advances by [n]. *)
Lemma Pulls_array {T : Type} (l : list T) (n i : nat) :
  (i + n <= List.length l)%nat ->
  Pulls (mkArrayIterator l i) (firstn n (skipn i l)) (mkArrayIterator l (i + n)).
Proof.
  revert i. induction n as [|n IH]; intros i L.
  - rewrite Nat.add_0_r. simpl. constructor.
  - destruct (nth_error l i) as [v|] eqn:E.
    + rewrite (skipn_nth_error _ _ E). simpl.
      apply Pulls_cons with (s1 := mkArrayIterator l (S i)).
      * apply Returns_array_value. exact E.
      * replace (i + S n)%nat with (S i + n)%nat by lia. apply IH. lia.
    + apply nth_error_None in E. lia.
Qed.

Lemma Pulls_values_prefix {T : Type} (l1 l2 : list T) :
  Pulls (values (l1 ++ l2)) l1 (mkArrayIterator (l1 ++ l2) (List.length l1)).
Proof.
  pose proof (@Pulls_array T (l1 ++ l2) (List.length l1) 0) as P.
  simpl in P. rewrite firstn_app, firstn_all, Nat.sub_diag in P.
  simpl in P. rewrite app_nil_r in P.
  apply P. rewrite length_app. lia.
Qed.

(** The iterator [l.values()] gives the elements of [l] and ends. *)
Lemma Drains_values {T : Type} (l : list T) :
  Drains (values l) l (mkArrayIterator l (List.length l)).
Proof.
  exists (mkArrayIterator l (List.length l)). split.
  - pose proof (Pulls_values_prefix l []) as P.
    rewrite app_nil_r in P. exact P.
  - apply Returns_array_done. lia.
Qed.

(** ** The eager consumers on a finite iterator *)

Section ConsumerFacts.

Context {It T : Type} `{Iterator It T}.

Lemma eachOfList_prefix {E : Type} (functor : T -> E -> E * bool) (l : list T) :
  forall (env e : E) (pulled : list T) (broke : bool),
    eachOfList functor l env = (e, pulled, broke) ->
    exists rest, l = pulled ++ rest /\ (broke = false -> rest = []).
Proof.
  induction l as [|x l IH]; intros env e pulled broke EQ; simpl in EQ.
  - inversion EQ; subst. exists []. auto.
  - destruct (functor x env) as [env' [|]].
    + inversion EQ; subst. exists l. split; [reflexivity | discriminate].
    + destruct (eachOfList functor l env') as [[e1 p1] b1] eqn:R.
      inversion EQ; subst.
      destruct (IH _ _ _ _ R) as [rest [E1 E2]].
      exists rest. split; [simpl; congruence | assumption].
Qed.

(** [applyOnEachOf] on an iterator that gives [l] and ends: the loop
    returns; if the functor never asked to break, the iterator was drained;
    if it did, exactly the elements up to the one that asked were pulled. *)
Lemma applyOnEachOf_Drains {E : Type} (functor : T -> E -> E * bool)
      (s : It) (l : list T) (s' : It) :
  Drains s l s' ->
  forall (env e : E) (pulled : list T) (broke : bool),
    eachOfList functor l env = (e, pulled, broke) ->
    exists final,
      Returns (fun fuel => applyOnEachOf fuel s functor env) e final /\
      (broke = false -> final = s') /\
      (broke = true -> Pulls s pulled final).
Proof.
  intros [s1 [P D]]. induction P as [s|s v s2 l s1 R P IH];
    intros env e pulled broke EQ; simpl in EQ.
  - inversion EQ; subst. exists s'. split; [|split].
    + destruct D as [f0 D]. exists (S f0). intros fuel L.
      destruct fuel as [|k]; [lia|]. simpl.
      rewrite pullWrapped_next, (D k) by lia. reflexivity.
    + auto.
    + discriminate.
  - destruct (functor v env) as [env' brk] eqn:F. destruct brk.
    + inversion EQ; subst. exists s2. split; [|split].
      * destruct R as [f0 R]. exists (S f0). intros fuel L.
        destruct fuel as [|k]; [lia|]. simpl.
        rewrite pullWrapped_next, (R k), F by lia. reflexivity.
      * discriminate.
      * intros _. apply Pulls_one. exact R.
    + destruct (eachOfList functor l env') as [[e1 p1] b1] eqn:RL.
      inversion EQ; subst.
      destruct (IH D _ _ _ _ RL) as [final [[f1 R1] [NB B]]].
      exists final. split; [|split].
      * destruct R as [f0 R]. exists (S (Nat.max f0 f1)). intros fuel L.
        destruct fuel as [|k]; [lia|]. simpl.
        rewrite pullWrapped_next, (R k), F by lia. apply R1. lia.
      * exact NB.
      * intros B1. eapply Pulls_cons; [exact R | auto].
Qed.

(** [spread] on an iterator that gives [l] and ends returns [l]. *)
Lemma spread_Drains (s : It) (l : list T) (s' : It) :
  Drains s l s' -> Returns (fun fuel => spread fuel s) l s'.
Proof.
  intros [s1 [P D]]. induction P as [s|s v s2 l s1 R P IH].
  - destruct D as [f0 D]. exists (S f0). intros fuel L.
    destruct fuel as [|k]; [lia|]. simpl.
    rewrite pullWrapped_next, (D k) by lia. reflexivity.
  - destruct (IH D) as [f1 R1]. destruct R as [f0 R].
    exists (S (Nat.max f0 f1)). intros fuel L.
    destruct fuel as [|k]; [lia|]. simpl.
    rewrite pullWrapped_next, (R k), (R1 k) by lia. reflexivity.
Qed.

End ConsumerFacts.

(** ** [reduce] with early break *)

(** C2 as stated fails: the reduction returns [6], but the element [4] is
    pulled from the source (it is the element whose visit asks for the
    break), so it is not true that neither [4] nor [5] is consumed: an array
    iterator that has not given the element at position 3 is at position 3
    at most. *)
Lemma reduce_break_consumes_4 :
  ~ (exists final,
       Returns (fun fuel => reduce fuel (values [1; 2; 3; 4; 5]) sumWhileAtMost3 0)
               6 final /\
       (index final <= 3)%nat).
Proof.
  intros [final [R L]].
  assert (R' : Returns (fun fuel => reduce fuel (values [1; 2; 3; 4; 5])
                                           sumWhileAtMost3 0)
                       6 (mkArrayIterator [1; 2; 3; 4; 5] 4)).
  { exists 4%nat. intros fuel F.
    do 4 (destruct fuel as [|fuel]; [lia|]). reflexivity. }
  destruct (Returns_unique R R') as [_ E]. subst final. simpl in L. lia.
Qed.

(** C2, amended: [reduce] over [[1,2,3,4,5]] with seed [0] and the breaking
    functor returns [6]; the elements [1,2,3,4] are pulled ([4] triggers the
    break) and [5] is never pulled: it is what the source gives next. *)
Theorem reduce_break_returns_6 :
  exists final,
    Returns (fun fuel => reduce fuel (values [1; 2; 3; 4; 5]) sumWhileAtMost3 0)
            6 final /\
    Pulls (values [1; 2; 3; 4; 5]) [1; 2; 3; 4] final /\
    index final = 4%nat /\
    Returns (fun fuel => next fuel final) (IterValue 5)
            (mkArrayIterator [1; 2; 3; 4; 5] 5).
Proof.
  exists (mkArrayIterator [1; 2; 3; 4; 5] 4). split; [|split; [|split]].
  - exists 4%nat. intros fuel F.
    do 4 (destruct fuel as [|fuel]; [lia|]). reflexivity.
  - apply (Pulls_values_prefix [1; 2; 3; 4] [5]).
  - reflexivity.
  - apply Returns_array_value. reflexivity.
Qed.

(** ** [checkAllFulfill] and [checkAnyFulfills] *)

Section Quantifiers.

Context {It T : Type} `{Iterator It T}.

(** The loop of [checkAllFulfill] on the elements [l]. *)
Lemma eachOfList_checkAll (predicate : T -> bool) (l : list T) :
  forall acc : bool,
  exists pulled,
    eachOfList (fun element (accumulator : bool) =>
                  (accumulator && predicate element, negb (predicate element)))
               l acc
    = (acc && forallb predicate l, pulled, negb (forallb predicate l)) /\
    (forall l1 x l2, l = l1 ++ x :: l2 -> forallb predicate l1 = true ->
                     predicate x = false -> pulled = l1 ++ [x]).
Proof.
  induction l as [|y l IH]; intros acc; simpl.
  - exists []. split.
    + rewrite andb_true_r. reflexivity.
    + intros [|z l1] x l2 E; discriminate.
  - destruct (predicate y) eqn:Py; simpl.
    + destruct (IH (acc && true)) as [pulled [E D]].
      exists (y :: pulled). rewrite E. split.
      * rewrite andb_true_r. reflexivity.
      * intros [|z l1] x l2 EQ A Px; simpl in *.
        -- inversion EQ; subst. congruence.
        -- inversion EQ; subst. apply andb_true_iff in A.
           f_equal. eapply D; [reflexivity | tauto | assumption].
    + exists [y]. split.
      * reflexivity.
      * intros [|z l1] x l2 EQ A Px; simpl in *.
        -- inversion EQ; subst. reflexivity.
        -- inversion EQ; subst. rewrite Py in A. discriminate.
Qed.

Lemma checkAllFulfill_Drains (predicate : T -> bool) (s : It) (l : list T) (s' : It) :
  Drains s l s' ->
  exists final,
    Returns (fun fuel => checkAllFulfill fuel s predicate)
            (forallb predicate l) final /\
    (forallb predicate l = true -> final = s') /\
    (forall l1 x l2, l = l1 ++ x :: l2 -> forallb predicate l1 = true ->
                     predicate x = false -> Pulls s (l1 ++ [x]) final).
Proof.
  intros D.
  destruct (eachOfList_checkAll predicate l true) as [pulled [E P]].
  destruct (applyOnEachOf_Drains _ D _ E) as [final [R [NB B]]].
  exists final. split; [|split].
  - exact R.
  - intros A. apply NB. rewrite A. reflexivity.
  - intros l1 x l2 EQ A Px. rewrite <- (P _ _ _ EQ A Px). apply B.
    subst l. rewrite forallb_app. simpl. rewrite Px, A. reflexivity.
Qed.

Lemma forallb_negb_existsb (predicate : T -> bool) (l : list T) :
  negb (forallb (fun element => negb (predicate element)) l) = existsb predicate l.
Proof.
  induction l as [|x l IH]; simpl; [reflexivity|].
  rewrite negb_andb, negb_involutive, IH. reflexivity.
Qed.

Lemma checkAnyFulfills_Drains (predicate : T -> bool) (s : It) (l : list T) (s' : It) :
  Drains s l s' ->
  exists final,
    Returns (fun fuel => checkAnyFulfills fuel s predicate)
            (existsb predicate l) final /\
    Returns (fun fuel => checkAllFulfill fuel s (fun e => negb (predicate e)))
            (negb (existsb predicate l)) final /\
    (existsb predicate l = false -> final = s').
Proof.
  intros D.
  destruct (checkAllFulfill_Drains (fun e => negb (predicate e)) D)
    as [final [[f0 R] [A _]]].
  exists final. split; [|split].
  - exists f0. intros fuel L. unfold checkAnyFulfills.
    rewrite (R fuel L), forallb_negb_existsb. reflexivity.
  - exists f0. intros fuel L.
    rewrite (R fuel L), <- forallb_negb_existsb, negb_involutive. reflexivity.
  - intros E. apply A. rewrite <- forallb_negb_existsb in E.
    apply negb_false_iff in E. exact E.
Qed.

End Quantifiers.

(** C4: on a finite iterator that gives the elements [l], [checkAllFulfill]
    returns; its result is [true] exactly when every element satisfies the
    predicate, in particular when there is no element; when all elements
    satisfy it the iterator is drained, and when the first failing element
    is [x] the elements pulled are exactly those up to and including [x]:
    nothing after it is pulled. *)
Theorem checkAllFulfill_finite {It T : Type} `{Iterator It T}
    (predicate : T -> bool) (s : It) (l : list T) (s' : It) :
  Drains s l s' ->
  exists (b : bool) (final : It),
    Returns (fun fuel => checkAllFulfill fuel s predicate) b final /\
    (b = true <-> forall e, In e l -> predicate e = true) /\
    (l = [] -> b = true) /\
    (b = true -> final = s') /\
    (forall l1 x l2, l = l1 ++ x :: l2 ->
       (forall e, In e l1 -> predicate e = true) -> predicate x = false ->
       Pulls s (l1 ++ [x]) final).
Proof.
  intros D. destruct (checkAllFulfill_Drains predicate D) as [final [R [A B]]].
  exists (forallb predicate l), final.
  split; [exact R|]. split; [apply forallb_forall|].
  split; [intros E; subst l; reflexivity|]. split; [exact A|].
  intros l1 x l2 EQ P1 Px. eapply B; eauto. apply forallb_forall. exact P1.
Qed.

Lemma checkAllFulfill_finite_witness :
  Drains (values [2; 4; 5; 6]) [2; 4; 5; 6] (mkArrayIterator [2; 4; 5; 6] 4) /\
  exists (b : bool) (final : ArrayIterator Z),
    Returns (fun fuel => checkAllFulfill fuel (values [2; 4; 5; 6]) Z.even) b final /\
    (b = true <-> forall e, In e [2; 4; 5; 6] -> Z.even e = true) /\
    ([2; 4; 5; 6] = [] -> b = true) /\
    (b = true -> final = mkArrayIterator [2; 4; 5; 6] 4) /\
    (forall l1 x l2, [2; 4; 5; 6] = l1 ++ x :: l2 ->
       (forall e, In e l1 -> Z.even e = true) -> Z.even x = false ->
       Pulls (values [2; 4; 5; 6]) (l1 ++ [x]) final).
Proof.
  split.
  - apply (Drains_values [2; 4; 5; 6]).
  - apply (checkAllFulfill_finite Z.even (Drains_values [2; 4; 5; 6])).
Defined.

(** C5: on a finite iterator that gives the elements [l], [checkAnyFulfills]
    returns; its result is [true] exactly when some element satisfies the
    predicate, and [false] when there is no element; and it is the negation
    of [checkAllFulfill] with the negated predicate, on every run. *)
Theorem checkAnyFulfills_finite {It T : Type} `{Iterator It T}
    (predicate : T -> bool) (s : It) (l : list T) (s' : It) :
  Drains s l s' ->
  exists (b : bool) (final : It),
    Returns (fun fuel => checkAnyFulfills fuel s predicate) b final /\
    (b = true <-> exists e, In e l /\ predicate e = true) /\
    (l = [] -> b = false) /\
    Returns (fun fuel => checkAllFulfill fuel s (fun e => negb (predicate e)))
            (negb b) final /\
    (forall fuel,
       checkAnyFulfills fuel s predicate
       = negated (checkAllFulfill fuel s (fun e => negb (predicate e)))).
Proof.
  intros D. destruct (checkAnyFulfills_Drains predicate D) as [final [R [R' _]]].
  exists (existsb predicate l), final.
  split; [exact R|]. split; [apply existsb_exists|].
  split; [intros E; subst l; reflexivity|]. split; [exact R'|].
  intros fuel. unfold checkAnyFulfills, negated.
  destruct (checkAllFulfill fuel s (fun e => negb (predicate e)))
    as [[[b|e] s1]|]; reflexivity.
Qed.

(** The scenario of the test suite:
    [checkAnyFulfills([1, 2, 3].values(), e => e === 2)]. *)
Lemma checkAnyFulfills_finite_witness :
  Drains (values [1; 2; 3]) [1; 2; 3] (mkArrayIterator [1; 2; 3] 3) /\
  exists (b : bool) (final : ArrayIterator Z),
    Returns (fun fuel => checkAnyFulfills fuel (values [1; 2; 3]) (fun e => e =? 2))
            b final /\
    (b = true <-> exists e, In e [1; 2; 3] /\ (e =? 2) = true) /\
    ([1; 2; 3] = [] -> b = false) /\
    Returns (fun fuel => checkAllFulfill fuel (values [1; 2; 3])
                                         (fun e => negb (e =? 2)))
            (negb b) final /\
    (forall fuel,
       checkAnyFulfills fuel (values [1; 2; 3]) (fun e => e =? 2)
       = negated (checkAllFulfill fuel (values [1; 2; 3]) (fun e => negb (e =? 2)))).
Proof.
  split.
  - apply (Drains_values [1; 2; 3]).
  - apply (checkAnyFulfills_finite (fun e => e =? 2) (Drains_values [1; 2; 3])).
Defined.

(** ** [map] *)

Section MapFacts.

Context {It T U : Type} `{Iterator It T}.

Lemma Pulls_map (functor : T -> U) (s : It) (l : list T) (s1 : It) :
  Pulls s l s1 ->
  Pulls (mkMap s functor false) (List.map functor l) (mkMap s1 functor false).
Proof.
  induction 1 as [s|s v s2 l s1 [f0 R] P IH]; simpl.
  - constructor.
  - eapply Pulls_cons; [|exact IH].
    exists f0. intros fuel L. unfold next at 1, MapGenerator_next. simpl.
    rewrite pullWrapped_next, (R fuel L). reflexivity.
Qed.

(** [map] over an iterator that gives [l] and ends gives the images of the
    elements of [l], in the same order, and ends. *)
Lemma Drains_map (functor : T -> U) (s : It) (l : list T) (s' : It) :
  Drains s l s' ->
  Drains (map s functor) (List.map functor l) (mkMap s' functor true).
Proof.
  intros [s1 [P [f0 D]]]. exists (mkMap s1 functor false). split.
  - apply Pulls_map. exact P.
  - exists f0. intros fuel L. unfold next at 1, MapGenerator_next. simpl.
    rewrite pullWrapped_next, (D fuel L). reflexivity.
Qed.

End MapFacts.

(** C7: for a finite source that gives the elements [l], [spread(source)]
    returns [l] and [spread(map(source, f))] returns the list of the images
    [f e] of the elements of [l], in the same order (so of the same
    length). *)
Theorem spread_map {It T U : Type} `{Iterator It T}
    (functor : T -> U) (s : It) (l : list T) (s' : It) :
  Drains s l s' ->
  Returns (fun fuel => spread fuel s) l s' /\
  Returns (fun fuel => spread fuel (map s functor)) (List.map functor l)
          (mkMap s' functor true) /\
  List.length (List.map functor l) = List.length l /\
  (forall n, nth_error (List.map functor l) n = option_map functor (nth_error l n)).
Proof.
  intros D. split; [|split; [|split]].
  - apply spread_Drains. exact D.
  - apply spread_Drains. apply Drains_map. exact D.
  - apply length_map.
  - intros n. apply nth_error_map.
Qed.

Lemma spread_map_witness :
  Drains (values [1; 2; 3]) [1; 2; 3] (mkArrayIterator [1; 2; 3] 3) /\
  Returns (fun fuel => spread fuel (map (values [1; 2; 3]) (fun e => e * 2)))
          [2; 4; 6]
          (mkMap (mkArrayIterator [1; 2; 3] 3) (fun e => e * 2) true).
Proof.
  split.
  - apply (Drains_values [1; 2; 3]).
  - apply (spread_map (fun e => e * 2) (Drains_values [1; 2; 3])).
Defined.

(** ** [smear] and [sumCumulatively] *)

Section SmearFacts.

Context {It T U V : Type} `{Iterator It T}.

Lemma Pulls_smear (functor : U -> T -> SmearResult U V) (s : It) (l : list T) (s1 : It) :
  Pulls s l s1 ->
  forall givenOn,
    Pulls (mkSmear s functor givenOn false)
          (fst (smearOutputs functor givenOn l))
          (mkSmear s1 functor (snd (smearOutputs functor givenOn l)) false).
Proof.
  induction 1 as [s|s v s2 l s1 [f0 R] P IH]; intros givenOn; simpl.
  - constructor.
  - specialize (IH (giveOn (functor givenOn v))).
    destruct (smearOutputs functor (giveOn (functor givenOn v)) l)
      as [outputs final] eqn:E.
    simpl in *. eapply Pulls_cons; [|exact IH].
    exists f0. intros fuel L. unfold next at 1, SmearGenerator_next. simpl.
    rewrite pullWrapped_next, (R fuel L). reflexivity.
Qed.

Lemma Drains_smear (functor : U -> T -> SmearResult U V) (s : It) (l : list T)
      (s' : It) (initialValue : U) :
  Drains s l s' ->
  Drains (smear s functor initialValue)
         (fst (smearOutputs functor initialValue l))
         (mkSmear s' functor (snd (smearOutputs functor initialValue l)) true).
Proof.
  intros [s1 [P [f0 D]]].
  exists (mkSmear s1 functor (snd (smearOutputs functor initialValue l)) false).
  split.
  - apply Pulls_smear. exact P.
  - exists f0. intros fuel L. unfold next at 1, SmearGenerator_next. simpl.
    rewrite pullWrapped_next, (D fuel L). reflexivity.
Qed.

End SmearFacts.

Lemma smearOutputs_sumFunctor (l : list Z) :
  forall givenOn,
    smearOutputs sumFunctor givenOn l = (runningSums givenOn l, givenOn + sumZ l).
Proof.
  induction l as [|x l IH]; intros givenOn; simpl.
  - rewrite Z.add_0_r. reflexivity.
  - rewrite IH. f_equal. unfold sumZ. simpl. lia.
Qed.

Lemma runningSums_nth (l : list Z) :
  forall givenOn n, (n < List.length l)%nat ->
    nth_error (runningSums givenOn l) n = Some (givenOn + sumZ (firstn (S n) l)).
Proof.
  induction l as [|x l IH]; intros givenOn n L; simpl in L; [lia|].
  destruct n as [|n].
  - simpl. unfold sumZ. simpl. f_equal. lia.
  - change (nth_error (runningSums (givenOn + x) l) n
            = Some (givenOn + sumZ (x :: firstn (S n) l))).
    rewrite IH by lia. unfold sumZ. simpl. f_equal. lia.
Qed.

Lemma runningSums_length (l : list Z) :
  forall givenOn, List.length (runningSums givenOn l) = List.length l.
Proof.
  induction l as [|x l IH]; intros givenOn; simpl; [reflexivity|].
  rewrite IH. reflexivity.
Qed.

Lemma runningSums_last (l : list Z) :
  forall givenOn d, l <> [] ->
    List.last (runningSums givenOn l) d = givenOn + sumZ l.
Proof.
  induction l as [|x l IH]; intros givenOn d NE; [congruence|].
  destruct l as [|y l].
  - unfold sumZ. simpl. lia.
  - change (List.last (runningSums (givenOn + x) (y :: l)) d
            = givenOn + sumZ (x :: y :: l)).
    rewrite IH by discriminate. unfold sumZ. simpl. lia.
Qed.

(** C8: over a finite source that gives the numbers [l], [sumCumulatively]
    gives as many values as [l] has elements and ends; its [n]-th value is
    the sum of the first [n] elements of [l] (the seed is [0]); and after
    any number of pulls the carried value is the sum of the elements seen so
    far, that is the value yielded last.  The numbers are integers, and they
    and all the partial sums are safe integers, so that every addition of
    the code is exact; all values given are then safe integers too. *)
Theorem sumCumulatively_running_total {It : Type} `{Iterator It Z}
    (s : It) (l : list Z) (s' : It) :
  Drains s l s' ->
  (forall x, In x l -> isSafeInteger x) ->
  (forall n, isSafeInteger (sumZ (firstn n l))) ->
  Drains (sumCumulatively s) (runningSums 0 l)
         (mkSmear s' sumFunctor (sumZ l) true) /\
  List.length (runningSums 0 l) = List.length l /\
  (forall n, (n < List.length l)%nat ->
     nth_error (runningSums 0 l) n = Some (sumZ (firstn (S n) l))) /\
  (forall n s_n, Pulls s (firstn n l) s_n ->
     Pulls (sumCumulatively s) (runningSums 0 (firstn n l))
           (mkSmear s_n sumFunctor (sumZ (firstn n l)) false) /\
     sumZ (firstn n l) = List.last (runningSums 0 (firstn n l)) 0) /\
  (forall v, In v (runningSums 0 l) -> isSafeInteger v).
Proof.
  intros D SafeElements SafeSums. split; [|split; [|split; [|split]]].
  - pose proof (Drains_smear sumFunctor 0 D) as DS.
    rewrite smearOutputs_sumFunctor in DS. exact DS.
  - apply runningSums_length.
  - intros n L. rewrite runningSums_nth by exact L. reflexivity.
  - intros n s_n P. split.
    + pose proof (Pulls_smear sumFunctor P 0) as PS.
      rewrite smearOutputs_sumFunctor in PS. exact PS.
    + destruct (firstn n l) as [|x k] eqn:E; [reflexivity|].
      rewrite runningSums_last by discriminate. reflexivity.
  - intros v I. apply In_nth_error in I. destruct I as [n N].
    assert (L : (n < List.length l)%nat).
    { rewrite <- (runningSums_length l 0). apply nth_error_Some. congruence. }
    rewrite runningSums_nth in N by exact L. inversion N; subst.
    apply (SafeSums (S n)).
Qed.

(** The scenario: [sumCumulatively([1,2,3,4])] gives [1, 3, 6, 10] and ends. *)
Lemma sumCumulatively_running_total_witness :
  Drains (values [1; 2; 3; 4]) [1; 2; 3; 4] (mkArrayIterator [1; 2; 3; 4] 4) /\
  (forall x, In x [1; 2; 3; 4] -> isSafeInteger x) /\
  (forall n, isSafeInteger (sumZ (firstn n [1; 2; 3; 4]))) /\
  Drains (sumCumulatively (values [1; 2; 3; 4])) [1; 3; 6; 10]
         (mkSmear (mkArrayIterator [1; 2; 3; 4] 4) sumFunctor 10 true).
Proof.
  assert (SafeElements : forall x, In x [1; 2; 3; 4] -> isSafeInteger x).
  { intros x [E|[E|[E|[E|[]]]]]; subst x;
      unfold isSafeInteger, MAX_SAFE_INTEGER; lia. }
  assert (SafeSums : forall n, isSafeInteger (sumZ (firstn n [1; 2; 3; 4]))).
  { intros n. do 5 (destruct n as [|n];
      [unfold isSafeInteger, MAX_SAFE_INTEGER, sumZ; simpl; lia|]).
    unfold isSafeInteger, MAX_SAFE_INTEGER, sumZ. simpl. lia. }
  split; [apply (Drains_values [1; 2; 3; 4])|].
  split; [exact SafeElements|]. split; [exact SafeSums|].
  apply (sumCumulatively_running_total (Drains_values [1; 2; 3; 4])
           SafeElements SafeSums).
Defined.

(** ** [reverse] *)

Lemma pop_snoc {T : Type} (l : list T) (x : T) : pop (l ++ [x]) = (Some x, l).
Proof.
  unfold pop. rewrite rev_app_distr. simpl. rewrite rev_involutive. reflexivity.
Qed.

Section ReverseFacts.

Context {It T : Type} `{Iterator It T}.

Lemma reverse_loop_snoc (s : It) (l : list T) (x : T) :
  reverse_loop s (l ++ [x])
  = Some (Normal (IterValue x), mkReverse s (ReverseYielded l)).
Proof.
  unfold reverse_loop. rewrite pop_snoc.
  destruct (0 <? List.length (l ++ [x]))%nat eqn:E; [reflexivity|].
  apply Nat.ltb_ge in E. rewrite length_app in E. simpl in E. lia.
Qed.

(** Suspended in the loop with [sequence] left, the generator gives the
    elements of [sequence] from the last to the first. *)
Lemma Pulls_reverse_yielded (s : It) (sequence : list T) :
  Pulls (mkReverse s (ReverseYielded sequence)) (List.rev sequence)
        (mkReverse s (ReverseYielded [])).
Proof.
  induction sequence as [|x l IH] using rev_ind.
  - constructor.
  - rewrite rev_app_distr. simpl. eapply Pulls_cons; [|exact IH].
    exists O. intros fuel _. unfold next at 1, ReverseGenerator_next. simpl.
    apply reverse_loop_snoc.
Qed.

Lemma Drains_reverse (s : It) (l : list T) (s' : It) :
  Drains s l s' ->
  Drains (reverse s) (List.rev l) (mkReverse s' ReverseCompleted).
Proof.
  intros D. apply spread_Drains in D. destruct D as [f0 D].
  destruct l as [|y l0] using rev_ind.
  - exists (reverse s). split; [constructor|].
    exists f0. intros fuel L. unfold next at 1, ReverseGenerator_next. simpl.
    rewrite (D fuel L). reflexivity.
  - clear IHl0. exists (mkReverse s' (ReverseYielded [])). split.
    + rewrite rev_app_distr. simpl.
      eapply Pulls_cons; [|apply Pulls_reverse_yielded].
      exists f0. intros fuel L. unfold next at 1, ReverseGenerator_next. simpl.
      rewrite (D fuel L). apply reverse_loop_snoc.
    + exists O. intros fuel _. reflexivity.
Qed.

End ReverseFacts.

(** C6: for every finite sequence [l], [reverse] of an iterator over [l]
    gives [l] back to front, and draining [reverse(reverse(l.values()))]
    returns [l] in its original order. *)
Theorem reverse_involution {T : Type} (l : list T) :
  Returns (fun fuel => spread fuel (reverse (values l))) (List.rev l)
          (mkReverse (mkArrayIterator l (List.length l)) ReverseCompleted) /\
  Returns (fun fuel => spread fuel (reverse (reverse (values l)))) l
          (mkReverse (mkReverse (mkArrayIterator l (List.length l)) ReverseCompleted)
                     ReverseCompleted).
Proof.
  split.
  - apply spread_Drains, Drains_reverse, Drains_values.
  - pose proof (Drains_reverse (Drains_reverse (Drains_values l))) as D.
    rewrite rev_involutive in D. apply spread_Drains. exact D.
Qed.

(** ** [range] and [repeat] *)

Section RepeatFacts.

Context {T : Type} (value : T) (times : Z).

(** After the loop of [range] the end point is given once more, and then
    the sequence ends. *)
Lemma Drains_repeat_tail (i : Z) :
  times <= i + 1 ->
  Drains (repeat_at value times (RangeYieldedI i) false) [value] (repeat_at value times RangeCompleted true).
Proof.
  intros L. exists (repeat_at value times RangeYieldedStop false). split.
  - apply Pulls_one. exists O. intros fuel _.
    unfold next at 1, RepeatGenerator_next, repeat_at. simpl.
    unfold next, RangeGenerator_next, range_test, continuePredicate. simpl.
    destruct (i + 1 <? times) eqn:E; [apply Z.ltb_lt in E; lia|]. reflexivity.
  - exists O. intros fuel _. reflexivity.
Qed.

Lemma Drains_repeat_loop (k : nat) :
  forall i, i + 1 + Z.of_nat k = times ->
    Drains (repeat_at value times (RangeYieldedI i) false) (List.repeat value (S k))
           (repeat_at value times RangeCompleted true).
Proof.
  induction k as [|k IH]; intros i E.
  - apply Drains_repeat_tail. lia.
  - destruct (IH (i + 1)) as [s1 [P D]]; [lia|].
    exists s1. split; [|exact D].
    change (List.repeat value (S (S k))) with (value :: List.repeat value (S k)).
    eapply Pulls_cons; [|exact P].
    exists O. intros fuel _.
    unfold next at 1, RepeatGenerator_next, repeat_at. simpl.
    unfold next, RangeGenerator_next, range_test, continuePredicate. simpl.
    destruct (i + 1 <? times) eqn:F; [reflexivity|].
    apply Z.ltb_ge in F. lia.
Qed.

(** For [times <= 1], [repeat] gives [value] exactly once. *)
Lemma Drains_repeat_nonpositive :
  times <= 1 ->
  Drains (repeat value times) [value] (repeat_at value times RangeCompleted true).
Proof.
  intros L. exists (repeat_at value times RangeYieldedStop false). split.
  - apply Pulls_one. exists O. intros fuel _.
    unfold next at 1, RepeatGenerator_next, repeat, repeat_at. simpl.
    unfold next, RangeGenerator_next, range_test, continuePredicate. simpl.
    destruct (1 <? times) eqn:F; [apply Z.ltb_lt in F; lia|]. reflexivity.
  - exists O. intros fuel _. reflexivity.
Qed.

(** For a safe integer [times >= 1], [repeat] gives [value] exactly [times]
    times. *)
Lemma Drains_repeat_positive :
  1 <= times ->
  isSafeInteger times ->
  Drains (repeat value times) (List.repeat value (Z.to_nat times))
         (repeat_at value times RangeCompleted true).
Proof.
  intros L _. destruct (Z.eq_dec times 1) as [E|NE].
  - replace (Z.to_nat times) with 1%nat by lia.
    apply Drains_repeat_nonpositive. lia.
  - destruct (@Drains_repeat_loop (Z.to_nat (times - 2)) 1) as [s1 [P D]]; [lia|].
    exists s1. split; [|exact D].
    replace (Z.to_nat times) with (S (S (Z.to_nat (times - 2)))) by lia.
    change (List.repeat value (S (S (Z.to_nat (times - 2)))))
      with (value :: List.repeat value (S (Z.to_nat (times - 2)))).
    eapply Pulls_cons; [|exact P].
    exists O. intros fuel _.
    unfold next at 1, RepeatGenerator_next, repeat, repeat_at. simpl.
    unfold next, RangeGenerator_next, range_test, continuePredicate. simpl.
    destruct (1 <? times) eqn:F; [reflexivity|].
    apply Z.ltb_ge in F. lia.
Qed.

End RepeatFacts.

(** C3 fails at [times = 0]: [range(1, 0, 1, true)] skips its loop but still
    gives its end point, so [repeat(value, 0)] gives [value] once, not zero
    times. *)
Theorem repeat_zero_yields_once {T : Type} (value : T) :
  Returns (fun fuel => spread fuel (repeat value 0)) [value]
          (repeat_at value 0 RangeCompleted true) /\
  [value] <> List.repeat value (Z.to_nat 0).
Proof.
  split.
  - apply spread_Drains. apply Drains_repeat_nonpositive. lia.
  - simpl. discriminate.
Qed.

(** For every safe integer [times >= 1] the sequence of
    [repeat(value, times)] is [value] exactly [times] times. *)
Lemma repeat_positive_yields_times {T : Type} (value : T) (times : Z) :
  1 <= times ->
  isSafeInteger times ->
  Returns (fun fuel => spread fuel (repeat value times))
          (List.repeat value (Z.to_nat times))
          (repeat_at value times RangeCompleted true).
Proof.
  intros L Safe. apply spread_Drains. apply Drains_repeat_positive; assumption.
Qed.

(** ** [zip] *)

Section ZipFacts.

Context {It T : Type} `{Iterator It T}.

Lemma checkAllFulfill_values {A : Type} (predicate : A -> bool) (l : list A) :
  exists final,
    Returns (fun fuel => checkAllFulfill fuel (values l) predicate)
            (forallb predicate l) final.
Proof.
  destruct (checkAllFulfill_Drains predicate (Drains_values l)) as [final [R _]].
  exists final. exact R.
Qed.

Lemma checkAnyFulfills_values {A : Type} (predicate : A -> bool) (l : list A) :
  exists final,
    Returns (fun fuel => checkAnyFulfills fuel (values l) predicate)
            (existsb predicate l) final.
Proof.
  destruct (checkAnyFulfills_Drains predicate (Drains_values l)) as [final [R _]].
  exists final. exact R.
Qed.

(** One pull of a [zip] generator that has not completed, in terms of the
    results its iterators give at this step. *)
Lemma zip_next_step (its its' : list It) (results : list (IteratorResult T)) :
  Returns (fun fuel => pullEach fuel its) results its' ->
  exists f0, forall fuel, (f0 <= fuel)%nat ->
    next fuel (zip its)
    = if existsb resultHasNext results && negb (forallb resultHasNext results)
      then Some (Throw unequalLengthMessage, mkZip its' true)
      else if forallb resultHasNext results
           then Some (Normal (IterValue (resultValues results)), mkZip its' false)
           else Some (Normal IterDone, mkZip its' true).
Proof.
  intros [f0 P].
  destruct (checkAnyFulfills_values (@resultHasNext T) results) as [a1 [f1 R1]].
  destruct (checkAllFulfill_values (@resultHasNext T) results) as [a2 [f2 R2]].
  exists (Nat.max f0 (Nat.max f1 f2)). intros fuel L.
  unfold next at 1, ZipGenerator_next, zip_next, zip. simpl.
  rewrite (P fuel), (R1 fuel), (R2 fuel) by lia. reflexivity.
Qed.

Lemma resultValues_all (results : list (IteratorResult T)) :
  forallb resultHasNext results = true ->
  List.map (@IterValue T) (resultValues results) = results.
Proof.
  induction results as [|[v|] rs IH]; simpl; intros A.
  - reflexivity.
  - rewrite IH by exact A. reflexivity.
  - discriminate.
Qed.

Lemma forallb_false_In {A : Type} (p : A -> bool) (l : list A) (x : A) :
  In x l -> p x = false -> forallb p l = false.
Proof.
  intros I Px. destruct (forallb p l) eqn:E; [|reflexivity].
  rewrite forallb_forall in E. rewrite (E x I) in Px. discriminate.
Qed.

Lemma existsb_false_all (results : list (IteratorResult T)) :
  (forall r, In r results -> r = IterDone) ->
  existsb resultHasNext results = false.
Proof.
  intros A. destruct (existsb resultHasNext results) eqn:E; [|reflexivity].
  apply existsb_exists in E. destruct E as [r [I E]].
  rewrite (A r I) in E. discriminate.
Qed.

End ZipFacts.

Lemma pullEach_length {It T : Type} `{Iterator It T} (fuel : nat) (its : list It) :
  forall results its',
    pullEach fuel its = Some (Normal results, its') ->
    List.length results = List.length its.
Proof.
  induction its as [|i its IH]; simpl; intros results its' E.
  - inversion E. reflexivity.
  - destruct (next fuel i) as [[[r|e] i']|]; try discriminate.
    destruct (pullEach fuel its) as [[[rs|e] rest']|]; try discriminate.
    inversion E; subst. simpl. f_equal. eapply IH. reflexivity.
Qed.




(** The scenarios of the specification. *)
Example zip_equal_lengths :
  Returns (fun fuel =>
             spread fuel (zip [values [JsNumber 1; JsNumber 2; JsNumber 3];
                               values [JsString "a"; JsString "b"; JsString "c"]]))
          [[JsNumber 1; JsString "a"]; [JsNumber 2; JsString "b"];
           [JsNumber 3; JsString "c"]]
          (mkZip [mkArrayIterator [JsNumber 1; JsNumber 2; JsNumber 3] 3;
                  mkArrayIterator [JsString "a"; JsString "b"; JsString "c"] 3]
                 true).
Proof.
  exists 8%nat. intros fuel L.
  do 8 (destruct fuel as [|fuel]; [lia|]). reflexivity.
Qed.

Example zip_shorter_second :
  Returns (fun fuel =>
             pullN fuel 2 (zip [values [JsNumber 1; JsNumber 2; JsNumber 3];
                                values [JsString "a"; JsString "b"]]))
          [IterValue [JsNumber 1; JsString "a"]; IterValue [JsNumber 2; JsString "b"]]
          (zip [mkArrayIterator [JsNumber 1; JsNumber 2; JsNumber 3] 2;
                mkArrayIterator [JsString "a"; JsString "b"] 2]) /\
  Raises (fun fuel =>
            pullN fuel 3 (zip [values [JsNumber 1; JsNumber 2; JsNumber 3];
                               values [JsString "a"; JsString "b"]]))
         unequalLengthMessage
         (mkZip [mkArrayIterator [JsNumber 1; JsNumber 2; JsNumber 3] 3;
                 mkArrayIterator [JsString "a"; JsString "b"] 2] true).
Proof.
  split; exists 4%nat; intros fuel L;
    do 4 (destruct fuel as [|fuel]; [lia|]); reflexivity.
Qed.

(** C10: the sequence of [zip] of the empty tuple never ends.  With no
    result at a step, [checkAllFulfill] is true of the results and
    [checkAnyFulfills] is false, so every pull gives the empty tuple, and
    draining the sequence with [spread] does not return. *)
Theorem zip_empty_never_ends {It T : Type} `{Iterator It T} :
  (forall fuel,
     checkAllFulfill (S fuel) (values (@nil (IteratorResult T))) resultHasNext
     = Some (Normal true, values []) /\
     checkAnyFulfills (S fuel) (values (@nil (IteratorResult T))) resultHasNext
     = Some (Normal false, values [])) /\
  (forall n fuel,
     pullN (S fuel) n (zip (@nil It))
     = Some (Normal (List.repeat (IterValue (@nil T)) n), zip [])) /\
  Diverges (fun fuel => spread fuel (zip (@nil It))).
Proof.
  assert (N : forall fuel,
             next (S fuel) (zip (@nil It))
             = Some (Normal (IterValue (@nil T)), zip [])) by reflexivity.
  split; [|split].
  - intros fuel. split; reflexivity.
  - intros n fuel. induction n as [|n IH].
    + reflexivity.
    + change (pullN (S fuel) (S n) (zip (@nil It)))
        with (match next (S fuel) (zip (@nil It)) with
              | None => None
              | Some (Throw e, it') => Some (Throw e, it')
              | Some (Normal result, it') =>
                match pullN (S fuel) n it' with
                | None => None
                | Some (Throw e, it'') => Some (Throw e, it'')
                | Some (Normal results, it'') => Some (Normal (result :: results), it'')
                end
              end).
      rewrite N, IH. reflexivity.
  - intros fuel. induction fuel as [|fuel IH]; [reflexivity|].
    simpl. rewrite pullWrapped_next. destruct fuel as [|fuel]; [reflexivity|].
    rewrite N, IH. reflexivity.
Qed.

(** ** [PeekableIterator] *)

Lemma last_cons_default {A : Type} (l : list A) (a d : A) :
  List.last (a :: l) d = List.last l a.
Proof.
  revert a d. induction l as [|b l IH]; intros a d; [reflexivity|].
  change (List.last (a :: b :: l) d) with (List.last (b :: l) d).
  rewrite (IH b d). symmetry. apply IH.
Qed.

Section PeekableFacts.

Context {It T : Type} `{Iterator It T}.

(** [n] calls of [next()] on a wrapper that buffers [b]: they give [b] and
    then the first [n - 1] results of the source, and the wrapper buffers
    the [n]-th result of the source. *)
Lemma pullN_peekable (fuel n : nat) :
  forall (src : It) (b : IteratorResult T) results src',
    pullN fuel n src = Some (Normal results, src') ->
    pullN fuel n (mkPeekable src b)
    = Some (Normal (removelast (b :: results)), mkPeekable src' (List.last results b)).
Proof.
  induction n as [|n IH]; intros src b results src' E.
  - simpl in E. inversion E; subst. reflexivity.
  - simpl in E.
    destruct (next fuel src) as [[[r|e] src1]|] eqn:N; try discriminate.
    destruct (pullN fuel n src1) as [[[rs|e] src2]|] eqn:R; try discriminate.
    inversion E; subst.
    change (pullN fuel (S n) (mkPeekable src b))
      with (match next fuel (mkPeekable src b) with
            | None => None
            | Some (Throw e, it') => Some (Throw e, it')
            | Some (Normal result, it') =>
              match pullN fuel n it' with
              | None => None
              | Some (Throw e, it'') => Some (Throw e, it'')
              | Some (Normal results, it'') => Some (Normal (result :: results), it'')
              end
            end).
    change (next fuel (mkPeekable src b))
      with (peekable_next fuel (mkPeekable src b)).
    unfold peekable_next. simpl _iterator.
    rewrite N. simpl _nextResult. rewrite (IH _ r _ _ R).
    rewrite last_cons_default. reflexivity.
Qed.

End PeekableFacts.

(** C9: constructing a [PeekableIterator] pulls one result from the source
    and buffers it; [peek()] returns the buffered result and changes
    nothing; [next()] returns the buffered result, pulls one result from
    the source and buffers it; hence after construction and [n] calls of
    [next()] the source has been pulled [n + 1] times, the calls have
    returned its first [n] results in order, and the wrapper buffers its
    next result. *)
Theorem peekable_holds_next_result {It T : Type} `{Iterator It T} (fuel : nat) :
  (forall (src : It) r src1,
     next fuel src = Some (Normal r, src1) ->
     newPeekableIterator fuel src = Some (Normal (mkPeekable src1 r), src1)) /\
  (forall p : PeekableIterator It T,
     peek p = (_nextResult p, p) /\ peek (snd (peek p)) = peek p) /\
  (forall (p : PeekableIterator It T) r src2,
     next fuel (_iterator p) = Some (Normal r, src2) ->
     next fuel p = Some (Normal (fst (peek p)), mkPeekable src2 r)) /\
  (forall n (src : It) results src',
     pullN fuel (S n) src = Some (Normal results, src') ->
     exists p,
       newPeekableIterator fuel src = Some (Normal p, _iterator p) /\
       pullN fuel n p
       = Some (Normal (removelast results),
               mkPeekable src' (List.last results IterDone)) /\
       fst (peek (mkPeekable src' (List.last results IterDone)))
       = List.last results IterDone).
Proof.
  split; [|split; [|split]].
  - intros src r src1 N. unfold newPeekableIterator. rewrite N. reflexivity.
  - intros p. split; reflexivity.
  - intros p r src2 N.
    unfold next at 1, PeekableIterator_next, peekable_next. rewrite N. reflexivity.
  - intros n src results src' E. simpl in E.
    destruct (next fuel src) as [[[r|e] src1]|] eqn:N; try discriminate.
    destruct (pullN fuel n src1) as [[[rs|e] src2]|] eqn:R; try discriminate.
    inversion E; subst.
    exists (mkPeekable src1 r). split; [|split].
    + unfold newPeekableIterator. rewrite N. reflexivity.
    + rewrite (@pullN_peekable _ _ _ _ _ _ r _ _ R), last_cons_default. reflexivity.
    + reflexivity.
Qed.

(** Over [[1, 2, 3].values()]: the wrapper is built, [next()] is called
    twice and returns [1] and [2]; the source has given its three elements
    and the wrapper buffers [3]. *)
Lemma peekable_holds_next_result_witness :
  pullN 0 3 (values [1; 2; 3])
  = Some (Normal [IterValue 1; IterValue 2; IterValue 3],
          mkArrayIterator [1; 2; 3] 3) /\
  exists p,
    newPeekableIterator 0 (values [1; 2; 3]) = Some (Normal p, _iterator p) /\
    pullN 0 2 p
    = Some (Normal [IterValue 1; IterValue 2],
            mkPeekable (mkArrayIterator [1; 2; 3] 3) (IterValue 3)) /\
    fst (peek (mkPeekable (mkArrayIterator [1; 2; 3] 3) (IterValue 3)))
    = IterValue 3.
Proof.
  split.
  - reflexivity.
  - apply (proj2 (proj2 (proj2 (@peekable_holds_next_result
                                  (ArrayIterator Z) Z _ 0%nat)))
                 2%nat (values [1; 2; 3])
                 [IterValue 1; IterValue 2; IterValue 3]
                 (mkArrayIterator [1; 2; 3] 3)).
    reflexivity.
Defined.

(** * Further properties *)

(** ** [range] *)

(** What follows the loop: the end point if it is included, then the end. *)
Lemma Drains_range_after_loop (start stop stepSize : Z) (stopIncluded : bool)
      (pc : RangePc) (v : Z) :
  (forall fuel, next fuel (range_at (range start stop stepSize stopIncluded) pc)
                = range_test (range start stop stepSize stopIncluded) v) ->
  continuePredicate (stepSize >? 0) v stop = false ->
  Drains (range_at (range start stop stepSize stopIncluded) pc)
         (if stopIncluded then [stop] else [])
         (range_at (range start stop stepSize stopIncluded) RangeCompleted).
Proof.
  destruct stopIncluded; intros N C.
  - exists (range_at (range start stop stepSize true) RangeYieldedStop). split.
    + apply Pulls_one. exists O. intros fuel _. rewrite N.
      unfold range_test. simpl. rewrite C. reflexivity.
    + exists O. intros fuel _. reflexivity.
  - exists (range_at (range start stop stepSize false) pc). split; [constructor|].
    exists O. intros fuel _. rewrite N.
    unfold range_test. simpl. rewrite C. reflexivity.
Qed.

(** From a point where the loop test is about to see [v]: the loop gives
    [v, v + stepSize, ...] as long as the test holds. *)
Lemma Drains_range_loop (start stop stepSize : Z) (stopIncluded : bool) (n : nat) :
  forall (pc : RangePc) (v : Z),
    (forall fuel, next fuel (range_at (range start stop stepSize stopIncluded) pc)
                  = range_test (range start stop stepSize stopIncluded) v) ->
    (forall k, (k < n)%nat ->
       continuePredicate (stepSize >? 0) (v + Z.of_nat k * stepSize) stop = true) ->
    continuePredicate (stepSize >? 0) (v + Z.of_nat n * stepSize) stop = false ->
    Drains (range_at (range start stop stepSize stopIncluded) pc)
           (rangeValues v stepSize n ++ (if stopIncluded then [stop] else []))
           (range_at (range start stop stepSize stopIncluded) RangeCompleted).
Proof.
  induction n as [|n IH]; intros pc v N C F.
  - simpl. apply Drains_range_after_loop with (v := v); [exact N|].
    rewrite <- F. f_equal. simpl. lia.
  - destruct (IH (RangeYieldedI v) (v + stepSize)) as [s1 [P D]].
    + intros fuel. reflexivity.
    + intros k L. rewrite <- (C (S k)) by lia. f_equal. lia.
    + rewrite <- F. f_equal. lia.
    + exists s1. split; [|exact D].
      assert (E : rangeValues v stepSize (S n)
                  = v :: rangeValues (v + stepSize) stepSize n).
      { unfold rangeValues. simpl. f_equal; [lia|].
        rewrite <- seq_shift, map_map. apply map_ext. intros k. lia. }
      rewrite E. simpl. eapply Pulls_cons; [|exact P].
      exists O. intros fuel _. rewrite N. unfold range_test.
      specialize (C O (Nat.lt_0_succ _)).
      replace (v + Z.of_nat 0 * stepSize) with v in C by (simpl; lia).
      simpl. rewrite C. reflexivity.
Qed.

(** [rangeCount] is the number of turns of the loop of [range]. *)
Lemma rangeCount_loop (start stop stepSize : Z) :
  stepSize <> 0 ->
  (forall k, (k < rangeCount start stop stepSize)%nat ->
     continuePredicate (stepSize >? 0) (start + Z.of_nat k * stepSize) stop = true) /\
  continuePredicate (stepSize >? 0)
    (start + Z.of_nat (rangeCount start stop stepSize) * stepSize) stop = false.
Proof.
  intros NZ. unfold rangeCount, continuePredicate.
  destruct (stepSize >? 0) eqn:G.
  - apply Z.gtb_lt in G. rewrite (Z.abs_eq stepSize) by lia.
    set (q := (stop - start + stepSize - 1) / stepSize).
    pose proof (Z.mul_div_le (stop - start + stepSize - 1) stepSize G) as LO.
    pose proof (Z.mul_succ_div_gt (stop - start + stepSize - 1) stepSize G) as HI.
    fold q in LO, HI. split.
    + intros k L. apply Z.ltb_lt.
      assert (Z.of_nat k < q) by lia. nia.
    + apply Z.ltb_ge. destruct (Z_le_gt_dec 0 q) as [P|P].
      * rewrite Z2Nat.id by exact P. nia.
      * replace (Z.to_nat q) with O by lia. simpl. nia.
  - rewrite Z.gtb_ltb in G. apply Z.ltb_ge in G.
    assert (N : stepSize < 0) by lia.
    rewrite (Z.abs_neq stepSize) by lia.
    set (q := (start - stop + - stepSize - 1) / - stepSize).
    assert (PS : 0 < - stepSize) by lia.
    pose proof (Z.mul_div_le (start - stop + - stepSize - 1) (- stepSize) PS) as LO.
    pose proof (Z.mul_succ_div_gt (start - stop + - stepSize - 1) (- stepSize) PS) as HI.
    fold q in LO, HI. split.
    + intros k L. rewrite Z.gtb_ltb. apply Z.ltb_lt.
      assert (Z.of_nat k < q) by lia. nia.
    + rewrite Z.gtb_ltb. apply Z.ltb_ge. destruct (Z_le_gt_dec 0 q) as [P|P].
      * rewrite Z2Nat.id by exact P. nia.
      * replace (Z.to_nat q) with O by lia. simpl. nia.
Qed.

(** Every value the loop of [range] computes lies between [start] and
    [stop + stepSize]. *)
Lemma rangeCount_safe (start stop stepSize : Z) :
  stepSize <> 0 ->
  isSafeInteger start ->
  isSafeInteger (stop + stepSize) ->
  forall k, (k <= rangeCount start stop stepSize)%nat ->
    isSafeInteger (start + Z.of_nat k * stepSize).
Proof.
  intros NZ [S1 S2] [T1 T2] k L.
  destruct (rangeCount_loop start stop NZ) as [C _].
  destruct k as [|k].
  - simpl. unfold isSafeInteger. lia.
  - specialize (C k). unfold continuePredicate in C.
    unfold isSafeInteger. destruct (stepSize >? 0) eqn:G.
    + apply Z.gtb_lt in G.
      assert (B : start + Z.of_nat k * stepSize < stop)
        by (apply Z.ltb_lt; apply C; lia).
      nia.
    + rewrite Z.gtb_ltb in G. apply Z.ltb_ge in G.
      assert (B : stop < start + Z.of_nat k * stepSize).
      { apply Z.ltb_lt. rewrite <- Z.gtb_ltb. apply C. lia. }
      nia.
Qed.

(** X1: for integers [start], [stop] and a step that is not zero, all safe,
    with [stop + stepSize] safe too, [range(start, stop, stepSize,
    stopIncluded)] gives [start, start + stepSize, ...] for as long as the
    value lies strictly before [stop] in the direction of the step
    ([rangeCount] values), then [stop] itself if [stopIncluded], and ends.
    Every value the loop computes, the last one that fails the test
    included, is a safe integer, so that the additions of the code are
    exact. *)
Theorem range_sequence (start stop stepSize : Z) (stopIncluded : bool) :
  stepSize <> 0 ->
  isSafeInteger start ->
  isSafeInteger stop ->
  isSafeInteger stepSize ->
  isSafeInteger (stop + stepSize) ->
  Drains (range start stop stepSize stopIncluded)
         (rangeValues start stepSize (rangeCount start stop stepSize)
          ++ (if stopIncluded then [stop] else []))
         (range_at (range start stop stepSize stopIncluded) RangeCompleted) /\
  (forall v, In v (rangeValues start stepSize (rangeCount start stop stepSize)) ->
     if stepSize >? 0 then start <= v < stop else stop < v <= start) /\
  (forall k, (k <= rangeCount start stop stepSize)%nat ->
     isSafeInteger (start + Z.of_nat k * stepSize)).
Proof.
  intros NZ SafeStart SafeStop SafeStep SafeEnd.
  destruct (rangeCount_loop start stop NZ) as [C F]. split; [|split].
  - apply (@Drains_range_loop start stop stepSize stopIncluded
             (rangeCount start stop stepSize) RangeStart start).
    + intros fuel. reflexivity.
    + exact C.
    + exact F.
  - intros v I. unfold rangeValues in I. apply in_map_iff in I.
    destruct I as [k [E I]]. apply in_seq in I. specialize (C k (proj2 I)).
    unfold continuePredicate in C. destruct (stepSize >? 0) eqn:G.
    + apply Z.gtb_lt in G. apply Z.ltb_lt in C. nia.
    + rewrite Z.gtb_ltb in G, C. apply Z.ltb_ge in G. apply Z.ltb_lt in C. nia.
  - apply rangeCount_safe; assumption.
Qed.

(** [range(0, 5, 2, true)] gives [0, 2, 4, 5]; [range(5, 0, -1)] gives
    [5, 4, 3, 2, 1]. *)
Lemma range_sequence_witness :
  (2 <> 0 /\ isSafeInteger 0 /\ isSafeInteger 5 /\ isSafeInteger 2 /\
   isSafeInteger (5 + 2)) /\
  Drains (range 0 5 2 true) [0; 2; 4; 5]
         (range_at (range 0 5 2 true) RangeCompleted) /\
  Drains (range 5 0 (-1) false) [5; 4; 3; 2; 1]
         (range_at (range 5 0 (-1) false) RangeCompleted).
Proof.
  split; [|split].
  - unfold isSafeInteger, MAX_SAFE_INTEGER. lia.
  - apply (@range_sequence 0 5 2 true);
      unfold isSafeInteger, MAX_SAFE_INTEGER; lia.
  - apply (@range_sequence 5 0 (-1) false);
      unfold isSafeInteger, MAX_SAFE_INTEGER; lia.
Defined.

(** ** Sequences that do not end *)

(** If every state of a set gives a value and leads to a state of the set
    again, draining from such a state does not return. *)
Lemma spread_Diverges {It T : Type} `{Iterator It T} (Inv : It -> Prop) :
  (forall s fuel, Inv s ->
     next fuel s = None \/
     exists v s', next fuel s = Some (Normal (IterValue v), s') /\ Inv s') ->
  forall s, Inv s -> Diverges (fun fuel => spread fuel s).
Proof.
  intros Step s I fuel. revert s I.
  induction fuel as [|fuel IH]; intros s I; [reflexivity|].
  simpl. rewrite pullWrapped_next.
  destruct (Step s fuel I) as [N|[v [s' [N I']]]]; rewrite N; [reflexivity|].
  rewrite (IH s' I'). reflexivity.
Qed.

Lemma pullN_step {It T : Type} `{Iterator It T} (fuel n : nat) (it it' it'' : It)
      (r : IteratorResult T) (rs : list (IteratorResult T)) :
  next fuel it = Some (Normal r, it') ->
  pullN fuel n it' = Some (Normal rs, it'') ->
  pullN fuel (S n) it = Some (Normal (r :: rs), it'').
Proof.
  intros N P. simpl. rewrite N, P. reflexivity.
Qed.

Lemma next_range_zero_step (start stop : Z) (stopIncluded : bool) (fuel : nat)
      (pc : RangePc) :
  stop < start ->
  pc = RangeStart \/ pc = RangeYieldedI start ->
  next fuel (range_at (range start stop 0 stopIncluded) pc)
  = Some (Normal (IterValue start),
          range_at (range start stop 0 stopIncluded) (RangeYieldedI start)).
Proof.
  intros L [E|E]; subst pc;
    unfold next, RangeGenerator_next, range_test, continuePredicate; simpl;
    rewrite ?Z.add_0_r;
    (destruct (start >? stop) eqn:G;
     [reflexivity | rewrite Z.gtb_ltb in G; apply Z.ltb_ge in G; lia]).
Qed.

Lemma pullN_range_zero_step (start stop : Z) (stopIncluded : bool) (fuel n : nat) :
  stop < start ->
  pullN fuel n (range_at (range start stop 0 stopIncluded) (RangeYieldedI start))
  = Some (Normal (List.repeat (IterValue start) n),
          range_at (range start stop 0 stopIncluded) (RangeYieldedI start)).
Proof.
  intros L. induction n as [|n IH]; [reflexivity|].
  apply pullN_step with
    (it' := range_at (range start stop 0 stopIncluded) (RangeYieldedI start)).
  - apply next_range_zero_step; auto.
  - exact IH.
Qed.

(** X2: with a step of zero, [range] never moves.  If [start] is greater
    than [stop], every pull gives [start] and draining the sequence does not
    return; otherwise the loop is skipped and the sequence is the end point
    alone, if it is included, or empty. *)
Theorem range_zero_step (start stop : Z) (stopIncluded : bool) :
  (stop < start ->
   (forall fuel n,
      pullN fuel (S n) (range start stop 0 stopIncluded)
      = Some (Normal (List.repeat (IterValue start) (S n)),
              range_at (range start stop 0 stopIncluded) (RangeYieldedI start))) /\
   Diverges (fun fuel => spread fuel (range start stop 0 stopIncluded))) /\
  (start <= stop ->
   Drains (range start stop 0 stopIncluded)
          (if stopIncluded then [stop] else [])
          (range_at (range start stop 0 stopIncluded) RangeCompleted)).
Proof.
  split.
  - intros L. split.
    + intros fuel n.
      apply pullN_step with
        (it' := range_at (range start stop 0 stopIncluded) (RangeYieldedI start)).
      * apply (next_range_zero_step stopIncluded fuel L (or_introl eq_refl)).
      * apply pullN_range_zero_step. exact L.
    + apply (spread_Diverges
               (fun s => exists pc,
                    (pc = RangeStart \/ pc = RangeYieldedI start) /\
                    s = range_at (range start stop 0 stopIncluded) pc)).
      * intros s fuel [pc [P E]]. subst s. right. exists start.
        exists (range_at (range start stop 0 stopIncluded) (RangeYieldedI start)).
        split.
        -- apply next_range_zero_step; assumption.
        -- exists (RangeYieldedI start). auto.
      * exists RangeStart. auto.
  - intros L.
    apply Drains_range_after_loop with (v := start).
    + intros fuel. reflexivity.
    + unfold continuePredicate. simpl. rewrite Z.gtb_ltb. apply Z.ltb_ge. exact L.
Qed.

Lemma range_zero_step_witness :
  (0 < 5 /\ Diverges (fun fuel => spread fuel (range 5 0 0 false))) /\
  (0 <= 5 /\ Drains (range 0 5 0 true) [5] (range_at (range 0 5 0 true) RangeCompleted)).
Proof.
  split; (split; [lia|]).
  - apply (proj1 (range_zero_step 5 0 false)). lia.
  - apply (proj2 (range_zero_step 0 5 true)). lia.
Defined.

(** ** [repeat] *)

(** X3: for a safe integer [times], [repeat(value, times)] gives [value]
    exactly [max(1, times)] times: [times] times from 1 on, and once for
    zero and for negative [times].  The counter of the underlying [range]
    runs from 1 to [times] at most, within the safe integers. *)
Theorem repeat_count {T : Type} (value : T) (times : Z) :
  isSafeInteger times ->
  Drains (repeat value times) (List.repeat value (Z.to_nat (Z.max 1 times)))
         (repeat_at value times RangeCompleted true) /\
  (forall i, 1 <= i <= Z.max 1 times -> isSafeInteger i).
Proof.
  intros Safe. split.
  - destruct (Z_le_gt_dec 1 times) as [L|G].
    + rewrite Z.max_r by exact L. apply Drains_repeat_positive; assumption.
    + rewrite Z.max_l by lia. apply Drains_repeat_nonpositive. lia.
  - intros i B. unfold isSafeInteger, MAX_SAFE_INTEGER in *. lia.
Qed.

(** [repeat(7, 3)] gives [7, 7, 7]; [repeat(7, -2)] gives [7]. *)
Lemma repeat_count_witness :
  (isSafeInteger 3 /\ isSafeInteger (-2)) /\
  Drains (repeat 7 3) [7; 7; 7] (repeat_at 7 3 RangeCompleted true) /\
  Drains (repeat 7 (-2)) [7] (repeat_at 7 (-2) RangeCompleted true).
Proof.
  split; [|split].
  - unfold isSafeInteger, MAX_SAFE_INTEGER. lia.
  - apply (@repeat_count Z 7 3). unfold isSafeInteger, MAX_SAFE_INTEGER. lia.
  - apply (@repeat_count Z 7 (-2)). unfold isSafeInteger, MAX_SAFE_INTEGER. lia.
Defined.

(** ** [reduce] and [applyOnEachOf] *)

Lemma eachOfList_fold {T U : Type} (step : U -> T -> U) (l : list T) :
  forall init,
    eachOfList (fun element accumulator => (step accumulator element, false)) l init
    = (fold_left step l init, l, false).
Proof.
  induction l as [|x l IH]; intros init; simpl; [reflexivity|].
  rewrite IH. reflexivity.
Qed.

(** X4: with a functor that never invokes the break callback, [reduce] over
    a finite iterator is the left fold of the functor over its elements, and
    the iterator is drained. *)
Theorem reduce_fold_left {It T U : Type} `{Iterator It T}
    (step : U -> T -> U) (initialValue : U) (s : It) (l : list T) (s' : It) :
  Drains s l s' ->
  Returns (fun fuel => reduce fuel s (fun acc e => (step acc e, false)) initialValue)
          (fold_left step l initialValue) s'.
Proof.
  intros D.
  destruct (applyOnEachOf_Drains _ D _ (eachOfList_fold step l initialValue))
    as [final [R [NB _]]].
  rewrite <- (NB eq_refl). exact R.
Qed.

Lemma reduce_fold_left_witness :
  Drains (values [1; 2; 3; 4]) [1; 2; 3; 4] (mkArrayIterator [1; 2; 3; 4] 4) /\
  Returns (fun fuel => reduce fuel (values [1; 2; 3; 4])
                              (fun acc e => (acc * e, false)) 1)
          24 (mkArrayIterator [1; 2; 3; 4] 4).
Proof.
  split.
  - apply (Drains_values [1; 2; 3; 4]).
  - apply (reduce_fold_left Z.mul 1 (Drains_values [1; 2; 3; 4])).
Defined.

(** ** Short circuit without finiteness *)

Section ShortCircuit.

Context {It T : Type} `{Iterator It T}.

Lemma applyOnEachOf_checkAll_prefix (predicate : T -> bool) (s : It) (l1 : list T)
      (s0 : It) (x : T) (s1 : It) :
  Pulls s l1 s0 ->
  Returns (fun fuel => next fuel s0) (IterValue x) s1 ->
  forallb predicate l1 = true ->
  predicate x = false ->
  forall acc : bool,
    Returns (fun fuel =>
               applyOnEachOf fuel s
                 (fun element (accumulator : bool) =>
                    (accumulator && predicate element, negb (predicate element)))
                 acc)
            false s1.
Proof.
  intros P [f0 R] A Px.
  induction P as [s|s v s2 l s0 [f1 R1] P IH]; intros acc.
  - exists (S f0). intros fuel L. destruct fuel as [|k]; [lia|]. simpl.
    rewrite pullWrapped_next, (R k), Px by lia. simpl.
    rewrite andb_false_r. reflexivity.
  - simpl in A. apply andb_true_iff in A. destruct A as [Pv A].
    destruct (IH R A (acc && true)) as [f2 R2].
    exists (S (Nat.max f1 f2)). intros fuel L. destruct fuel as [|k]; [lia|]. simpl.
    rewrite pullWrapped_next, (R1 k), Pv by lia. simpl. apply R2. lia.
Qed.

End ShortCircuit.

(** X5: on any iterator, finite or not, whose first elements [l1] satisfy
    the predicate and whose next element [x] does not, [checkAllFulfill]
    returns [false] and leaves the iterator right after [x]; dually, when no
    element of [l1] satisfies the predicate and [x] does, [checkAnyFulfills]
    returns [true] and leaves the iterator right after [x]. *)
Theorem quantifiers_short_circuit {It T : Type} `{Iterator It T}
    (predicate : T -> bool) (s : It) (l1 : list T) (x : T) (s1 : It) :
  Pulls s (l1 ++ [x]) s1 ->
  ((forall e, In e l1 -> predicate e = true) -> predicate x = false ->
   Returns (fun fuel => checkAllFulfill fuel s predicate) false s1) /\
  ((forall e, In e l1 -> predicate e = false) -> predicate x = true ->
   Returns (fun fuel => checkAnyFulfills fuel s predicate) true s1).
Proof.
  intros P. apply Pulls_split in P. destruct P as [s0 [P0 P1]].
  inversion P1 as [|? ? s1' ? ? R Pn]; subst. inversion Pn; subst.
  split.
  - intros A Px.
    apply (applyOnEachOf_checkAll_prefix predicate P0 R); [|exact Px].
    apply forallb_forall. exact A.
  - intros A Px.
    assert (Q : Returns (fun fuel =>
                           checkAllFulfill fuel s (fun e => negb (predicate e)))
                        false s1).
    { apply (applyOnEachOf_checkAll_prefix (fun e => negb (predicate e)) P0 R).
      - apply forallb_forall. intros e I. rewrite (A e I). reflexivity.
      - rewrite Px. reflexivity. }
    destruct Q as [f0 Q]. exists f0. intros fuel L.
    unfold checkAnyFulfills. rewrite (Q fuel L). reflexivity.
Qed.

(** On the endless sequence [5, 5, ...] of [range(5, 0, 0)]: not all
    elements are below [5], and some element is [5]; one pull decides each. *)
Lemma quantifiers_short_circuit_witness :
  Pulls (range 5 0 0 false) ([] ++ [5])
        (range_at (range 5 0 0 false) (RangeYieldedI 5)) /\
  Returns (fun fuel => checkAllFulfill fuel (range 5 0 0 false) (fun e => e <? 5))
          false (range_at (range 5 0 0 false) (RangeYieldedI 5)) /\
  Returns (fun fuel => checkAnyFulfills fuel (range 5 0 0 false) (fun e => e =? 5))
          true (range_at (range 5 0 0 false) (RangeYieldedI 5)).
Proof.
  assert (P : Pulls (range 5 0 0 false) ([] ++ [5])
                    (range_at (range 5 0 0 false) (RangeYieldedI 5))).
  { apply Pulls_one. exists O. intros fuel _. reflexivity. }
  split; [exact P|]. split.
  - apply (proj1 (quantifiers_short_circuit (fun e => e <? 5) [] 5 P)).
    + intros e [].
    + reflexivity.
  - apply (proj2 (quantifiers_short_circuit (fun e => e =? 5) [] 5 P)).
    + intros e [].
    + reflexivity.
Defined.

(** ** Failures of the source *)

Section Failures.

Context {It T : Type} `{Iterator It T}.

Lemma spread_Raises (s : It) (l : list T) (s1 : It) (e : string) (s' : It) :
  Pulls s l s1 ->
  Raises (fun fuel => next fuel s1) e s' ->
  Raises (fun fuel => spread fuel s) e s'.
Proof.
  intros P [f0 R]. induction P as [s|s v s2 l s1 [f1 R1] P IH].
  - exists (S f0). intros fuel L. destruct fuel as [|k]; [lia|]. simpl.
    rewrite pullWrapped_next, (R k) by lia. reflexivity.
  - destruct (IH R) as [f2 R2].
    exists (S (Nat.max f1 f2)). intros fuel L. destruct fuel as [|k]; [lia|]. simpl.
    rewrite pullWrapped_next, (R1 k), (R2 k) by lia. reflexivity.
Qed.

Lemma applyOnEachOf_Raises {E : Type} (functor : T -> E -> E * bool)
      (s : It) (l : list T) (s1 : It) (e : string) (s' : It) :
  Pulls s l s1 ->
  Raises (fun fuel => next fuel s1) e s' ->
  forall (env env' : E),
    eachOfList functor l env = (env', l, false) ->
    Raises (fun fuel => applyOnEachOf fuel s functor env) e s'.
Proof.
  intros P [f0 R]. induction P as [s|s v s2 l s1 [f1 R1] P IH]; intros env env' EQ.
  - exists (S f0). intros fuel L. destruct fuel as [|k]; [lia|]. simpl.
    rewrite pullWrapped_next, (R k) by lia. reflexivity.
  - simpl in EQ. destruct (functor v env) as [env1 brk] eqn:F.
    destruct brk.
    + inversion EQ.
    + destruct (eachOfList functor l env1) as [[e1 p1] b1] eqn:RL.
      inversion EQ; subst.
      destruct (IH R _ _ RL) as [f2 R2].
      exists (S (Nat.max f1 f2)). intros fuel L. destruct fuel as [|k]; [lia|].
      simpl. rewrite pullWrapped_next, (R1 k), F by lia. apply R2. lia.
Qed.

End Failures.

(** X6: a failure of the source is not caught.  If the source gives the
    elements [l] and then throws, then [spread] throws the same error (the
    elements collected so far are lost), [reduce] with a functor that does
    not break throws it, and [map] gives the images of [l], throws it at the
    next pull, and is ended from then on. *)
Theorem source_failure_propagates {It T U : Type} `{Iterator It T}
    (functor : T -> U) (step : U -> T -> U) (initialValue : U)
    (s : It) (l : list T) (s1 : It) (e : string) (s' : It) :
  Pulls s l s1 ->
  Raises (fun fuel => next fuel s1) e s' ->
  Raises (fun fuel => spread fuel s) e s' /\
  Raises (fun fuel => reduce fuel s (fun acc x => (step acc x, false)) initialValue)
         e s' /\
  Pulls (map s functor) (List.map functor l) (mkMap s1 functor false) /\
  Raises (fun fuel => next fuel (mkMap s1 functor false)) e (mkMap s' functor true) /\
  Raises (fun fuel => spread fuel (map s functor)) e (mkMap s' functor true) /\
  StaysDone (mkMap s' functor true).
Proof.
  intros P R.
  assert (RM : Raises (fun fuel => next fuel (mkMap s1 functor false)) e
                      (mkMap s' functor true)).
  { destruct R as [f0 R]. exists f0. intros fuel L.
    unfold next at 1, MapGenerator_next. simpl.
    rewrite pullWrapped_next, (R fuel L). reflexivity. }
  split; [|split; [|split; [|split; [|split]]]].
  - apply (spread_Raises P R).
  - apply (applyOnEachOf_Raises _ P R _ (eachOfList_fold step l initialValue)).
  - apply Pulls_map. exact P.
  - exact RM.
  - apply (spread_Raises (Pulls_map functor P) RM).
  - intros fuel. reflexivity.
Qed.

(** ** [zip] over arrays *)

Section ZipArrays.

Context {T : Type}.

Lemma pullEach_arrays (arrays : list (list T)) (j fuel : nat) :
  pullEach fuel (iteratorsAt arrays j)
  = Some (Normal (List.map (resultAt j) arrays), List.map (advancedAt j) arrays).
Proof.
  induction arrays as [|a arrays IH]; [reflexivity|].
  unfold iteratorsAt in *. simpl. rewrite IH.
  unfold next, ArrayIterator_next, resultAt, advancedAt. simpl.
  destruct (nth_error a j); reflexivity.
Qed.

Lemma arrays_all_values (arrays : list (list T)) (j : nat) :
  (forall a, In a arrays -> (j < List.length a)%nat) ->
  List.map (resultAt j) arrays = List.map (@IterValue T) (tupleAt arrays j) /\
  List.map (advancedAt j) arrays = iteratorsAt arrays (S j).
Proof.
  induction arrays as [|a arrays IH]; intros L; [split; reflexivity|].
  destruct IH as [E1 E2]; [intros c I; apply L; right; exact I|].
  assert (La : (j < List.length a)%nat) by (apply L; left; reflexivity).
  destruct (nth_error a j) as [v|] eqn:N; [|apply nth_error_None in N; lia].
  unfold tupleAt, iteratorsAt, resultAt, advancedAt in *. simpl.
  rewrite N, E1, E2. simpl. split; reflexivity.
Qed.

Lemma arrays_all_done (arrays : list (list T)) (j : nat) :
  (forall a, In a arrays -> (List.length a <= j)%nat) ->
  (forall r, In r (List.map (resultAt j) arrays) -> r = IterDone) /\
  List.map (advancedAt j) arrays = iteratorsAt arrays j.
Proof.
  induction arrays as [|a arrays IH]; intros L; [split; [intros r []|reflexivity]|].
  destruct IH as [E1 E2]; [intros c I; apply L; right; exact I|].
  assert (La : (List.length a <= j)%nat) by (apply L; left; reflexivity).
  apply nth_error_None in La.
  unfold iteratorsAt, resultAt, advancedAt in *. simpl. rewrite La, E2. split.
  - intros r [E|I]; [auto | apply E1; exact I].
  - reflexivity.
Qed.

Lemma tupleAt_nth (arrays : list (list T)) (j : nat) :
  (forall a, In a arrays -> (j < List.length a)%nat) ->
  List.length (tupleAt arrays j) = List.length arrays /\
  (forall i a, nth_error arrays i = Some a ->
               nth_error (tupleAt arrays j) i = nth_error a j).
Proof.
  induction arrays as [|c arrays IH]; intros L.
  - split; [reflexivity|]. intros [|i] a E; discriminate.
  - destruct IH as [E1 E2]; [intros a I; apply L; right; exact I|].
    assert (Lc : (j < List.length c)%nat) by (apply L; left; reflexivity).
    destruct (nth_error c j) as [v|] eqn:N; [|apply nth_error_None in N; lia].
    unfold tupleAt in *. simpl. rewrite N. simpl. split.
    + rewrite E1. reflexivity.
    + intros [|i] a E; simpl in *.
      * inversion E; subst. symmetry. exact N.
      * apply E2. exact E.
Qed.

Lemma zip_next_values {It : Type} `{Iterator It T} (its its' : list It) (vs : list T) :
  Returns (fun fuel => pullEach fuel its) (List.map (@IterValue T) vs) its' ->
  Returns (fun fuel => next fuel (zip its)) (IterValue vs) (zip its').
Proof.
  intros P. destruct (zip_next_step its P) as [f0 Z].
  exists f0. intros fuel L. rewrite (Z fuel L).
  assert (A : forallb resultHasNext (List.map (@IterValue T) vs) = true).
  { apply forallb_forall. intros r I.
    apply in_map_iff in I. destruct I as [v [E _]]. subst r. reflexivity. }
  rewrite A, andb_false_r.
  assert (V : resultValues (List.map (@IterValue T) vs) = vs).
  { clear. induction vs as [|v vs IH]; simpl; congruence. }
  rewrite V. reflexivity.
Qed.

Lemma zip_next_all_done {It : Type} `{Iterator It T} (its its' : list It)
      (results : list (IteratorResult T)) :
  Returns (fun fuel => pullEach fuel its) results its' ->
  results <> [] ->
  (forall r, In r results -> r = IterDone) ->
  Returns (fun fuel => next fuel (zip its)) IterDone (mkZip its' true).
Proof.
  intros P NE A. destruct (zip_next_step its P) as [f0 Z].
  exists f0. intros fuel L. rewrite (Z fuel L), (existsb_false_all _ A). simpl.
  destruct results as [|r rs]; [congruence|].
  rewrite (forallb_false_In resultHasNext (r :: rs) r); [reflexivity | | ].
  - left. reflexivity.
  - rewrite (A r); [reflexivity | left; reflexivity].
Qed.

Lemma zip_next_mixed {It : Type} `{Iterator It T} (its its' : list It)
      (results : list (IteratorResult T)) (v : T) :
  Returns (fun fuel => pullEach fuel its) results its' ->
  In (IterValue v) results ->
  In IterDone results ->
  Raises (fun fuel => next fuel (zip its)) unequalLengthMessage (mkZip its' true).
Proof.
  intros P Iv Id. destruct (zip_next_step its P) as [f0 Z].
  exists f0. intros fuel L. rewrite (Z fuel L).
  assert (E : existsb resultHasNext results = true).
  { apply existsb_exists. exists (IterValue v). auto. }
  rewrite E, (forallb_false_In resultHasNext _ _ Id eq_refl). reflexivity.
Qed.

(** While every array has [k] more elements, [zip] gives [k] tuples and
    every array iterator advances by [k]. *)
Lemma Pulls_zip_arrays (arrays : list (list T)) (k : nat) :
  forall j,
    (forall a, In a arrays -> (j + k <= List.length a)%nat) ->
    Pulls (zip (iteratorsAt arrays j)) (List.map (tupleAt arrays) (seq j k))
          (zip (iteratorsAt arrays (j + k))).
Proof.
  induction k as [|k IH]; intros j L.
  - rewrite Nat.add_0_r. constructor.
  - simpl. eapply Pulls_cons.
    + apply zip_next_values.
      destruct (@arrays_all_values arrays j) as [E1 E2].
      { intros a I. specialize (L a I). lia. }
      exists O. intros fuel _. rewrite pullEach_arrays, E1, E2. reflexivity.
    + replace (j + S k)%nat with (S j + k)%nat by lia.
      apply IH. intros a I. specialize (L a I). lia.
Qed.

End ZipArrays.

(** Over a non-empty tuple of arrays that all have [n] elements, [zip]
    gives the [n] tuples and ends. *)
Lemma Drains_zip_arrays {T : Type} (arrays : list (list T)) (n : nat) :
  arrays <> [] ->
  (forall a, In a arrays -> List.length a = n) ->
  Drains (zip (List.map values arrays)) (List.map (tupleAt arrays) (seq 0 n))
         (mkZip (iteratorsAt arrays n) true).
Proof.
  intros NE L. exists (zip (iteratorsAt arrays n)). split.
  - apply (Pulls_zip_arrays arrays n 0).
    intros a I. rewrite (L a I). simpl. lia.
  - destruct (@arrays_all_done T arrays n) as [A E].
    { intros a I. rewrite (L a I). lia. }
    assert (P : Returns (fun fuel => pullEach fuel (iteratorsAt arrays n))
                        (List.map (resultAt n) arrays)
                        (List.map (advancedAt n) arrays)).
    { exists O. intros fuel _. apply pullEach_arrays. }
    assert (NR : List.map (resultAt n) arrays <> []).
    { destruct arrays; [congruence | discriminate]. }
    pose proof (zip_next_all_done _ P NR A) as Z.
    rewrite E in Z. exact Z.
Qed.

(** X7: [zip] of a non-empty tuple of iterators over arrays that all have
    [n] elements gives [n] tuples and ends without error; the [j]-th tuple
    has one entry per array, and its [i]-th entry is the [j]-th element of
    the [i]-th array. *)
Theorem zip_arrays_equal_length {T : Type} (arrays : list (list T)) (n : nat) :
  arrays <> [] ->
  (forall a, In a arrays -> List.length a = n) ->
  Drains (zip (List.map values arrays)) (List.map (tupleAt arrays) (seq 0 n))
         (mkZip (iteratorsAt arrays n) true) /\
  (forall j, (j < n)%nat ->
     List.length (tupleAt arrays j) = List.length arrays /\
     forall i a, nth_error arrays i = Some a ->
                 nth_error (tupleAt arrays j) i = nth_error a j).
Proof.
  intros NE L. split.
  - apply Drains_zip_arrays; assumption.
  - intros j Lj. apply tupleAt_nth. intros a I. rewrite (L a I). exact Lj.
Qed.

Lemma zip_arrays_equal_length_witness :
  [[1; 2; 3]; [4; 5; 6]] <> [] /\
  (forall a, In a [[1; 2; 3]; [4; 5; 6]] -> List.length a = 3%nat) /\
  Drains (zip [values [1; 2; 3]; values [4; 5; 6]]) [[1; 4]; [2; 5]; [3; 6]]
         (mkZip [mkArrayIterator [1; 2; 3] 3; mkArrayIterator [4; 5; 6] 3] true).
Proof.
  assert (L : forall a, In a [[1; 2; 3]; [4; 5; 6]] -> List.length a = 3%nat).
  { intros a [E|[E|[]]]; subst a; reflexivity. }
  split; [discriminate|]. split; [exact L|].
  apply (@zip_arrays_equal_length Z [[1; 2; 3]; [4; 5; 6]] 3).
  - discriminate.
  - exact L.
Defined.

(** X8: [zip] of iterators over arrays of different lengths, the shortest
    having [m] elements, gives [m] tuples and raises the unequal-length
    error at the next pull, so draining it with [spread] raises; at that
    pull every longer array has lost one more element. *)
Theorem zip_arrays_unequal_length {T : Type} (arrays : list (list T)) (m : nat)
    (a b : list T) :
  (forall c, In c arrays -> (m <= List.length c)%nat) ->
  In a arrays -> List.length a = m ->
  In b arrays -> (m < List.length b)%nat ->
  Pulls (zip (List.map values arrays)) (List.map (tupleAt arrays) (seq 0 m))
        (zip (iteratorsAt arrays m)) /\
  Raises (fun fuel => next fuel (zip (iteratorsAt arrays m))) unequalLengthMessage
         (mkZip (List.map (advancedAt m) arrays) true) /\
  Raises (fun fuel => spread fuel (zip (List.map values arrays))) unequalLengthMessage
         (mkZip (List.map (advancedAt m) arrays) true) /\
  advancedAt m a = mkArrayIterator a m /\
  advancedAt m b = mkArrayIterator b (S m).
Proof.
  intros L Ia La Ib Lb.
  assert (P : Pulls (zip (List.map values arrays))
                    (List.map (tupleAt arrays) (seq 0 m))
                    (zip (iteratorsAt arrays m))).
  { apply (Pulls_zip_arrays arrays m 0). intros c I. specialize (L c I). simpl. lia. }
  assert (Na : nth_error a m = None) by (apply nth_error_None; lia).
  destruct (nth_error b m) as [v|] eqn:Nb; [|apply nth_error_None in Nb; lia].
  assert (R : Raises (fun fuel => next fuel (zip (iteratorsAt arrays m)))
                     unequalLengthMessage
                     (mkZip (List.map (advancedAt m) arrays) true)).
  { apply zip_next_mixed with (results := List.map (resultAt m) arrays) (v := v).
    - exists O. intros fuel _. apply pullEach_arrays.
    - apply in_map_iff. exists b. split; [|exact Ib].
      unfold resultAt. rewrite Nb. reflexivity.
    - apply in_map_iff. exists a. split; [|exact Ia].
      unfold resultAt. rewrite Na. reflexivity. }
  split; [exact P|]. split; [exact R|]. split; [|split].
  - apply (spread_Raises P R).
  - unfold advancedAt. rewrite Na. reflexivity.
  - unfold advancedAt. rewrite Nb. reflexivity.
Qed.

Lemma zip_arrays_unequal_length_witness :
  (forall c, In c [[1; 2; 3]; [4; 5]] -> (2 <= List.length c)%nat) /\
  Raises (fun fuel => spread fuel (zip [values [1; 2; 3]; values [4; 5]]))
         unequalLengthMessage
         (mkZip [mkArrayIterator [1; 2; 3] 3; mkArrayIterator [4; 5] 2] true).
Proof.
  assert (L : forall c, In c [[1; 2; 3]; [4; 5]] -> (2 <= List.length c)%nat).
  { intros c [E|[E|[]]]; subst c; simpl; lia. }
  split; [exact L|].
  apply (@zip_arrays_unequal_length Z [[1; 2; 3]; [4; 5]] 2 [4; 5] [1; 2; 3] L).
  - right. left. reflexivity.
  - reflexivity.
  - left. reflexivity.
  - simpl. lia.
Defined.

(** Over the sequence of [zip([[1, 2], [3]])], which gives [[1, 3]] and
    then raises: [spread] raises, and [map] gives the image of [[1, 3]] and
    then raises. *)
Lemma source_failure_propagates_witness :
  Pulls (zip [values [1; 2]; values [3]]) [[1; 3]]
        (zip [mkArrayIterator [1; 2] 1; mkArrayIterator [3] 1]) /\
  Raises (fun fuel => next fuel (zip [mkArrayIterator [1; 2] 1; mkArrayIterator [3] 1]))
         unequalLengthMessage
         (mkZip [mkArrayIterator [1; 2] 2; mkArrayIterator [3] 1] true) /\
  Raises (fun fuel => spread fuel (zip [values [1; 2]; values [3]]))
         unequalLengthMessage
         (mkZip [mkArrayIterator [1; 2] 2; mkArrayIterator [3] 1] true) /\
  Pulls (map (zip [values [1; 2]; values [3]]) (@List.length Z)) [2%nat]
        (mkMap (zip [mkArrayIterator [1; 2] 1; mkArrayIterator [3] 1])
               (@List.length Z) false).
Proof.
  assert (P : Pulls (zip [values [1; 2]; values [3]]) [[1; 3]]
                    (zip [mkArrayIterator [1; 2] 1; mkArrayIterator [3] 1])).
  { apply Pulls_one. exists 3%nat. intros fuel L.
    do 3 (destruct fuel as [|fuel]; [lia|]). reflexivity. }
  assert (R : Raises (fun fuel => next fuel (zip [mkArrayIterator [1; 2] 1;
                                                  mkArrayIterator [3] 1]))
                     unequalLengthMessage
                     (mkZip [mkArrayIterator [1; 2] 2; mkArrayIterator [3] 1] true)).
  { exists 3%nat. intros fuel L.
    do 3 (destruct fuel as [|fuel]; [lia|]). reflexivity. }
  split; [exact P|]. split; [exact R|].
  destruct (source_failure_propagates (@List.length Z)
              (fun (acc : nat) (x : list Z) => acc) O P R)
    as [S1 [_ [S3 _]]].
  split; [exact S1 | exact S3].
Defined.

(** ** Ended generators stay ended *)

Lemma Settles_zip {It T : Type} `{Iterator It T} : Settles (ZipGenerator It) (list T).
Proof.
  intros fuel g g' Hn fuel'.
  assert (C : zip_completed g' = true).
  { unfold next, ZipGenerator_next, zip_next in Hn.
    destruct (zip_completed g) eqn:Cg.
    - destruct Hn as [E|[e E]]; inversion E; subst; exact Cg.
    - destruct (pullEach fuel (zip_iterators g)) as [[[results|e1] its']|].
      + destruct (checkAnyFulfills fuel (values results) resultHasNext)
          as [[[some|e2] a1]|].
        * destruct (checkAllFulfill fuel (values results) resultHasNext)
            as [[[all|e3] a2]|].
          -- destruct (some && negb all); [|destruct all];
               destruct Hn as [E|[e E]]; inversion E; subst; reflexivity.
          -- destruct Hn as [E|[e E]]; inversion E; subst; reflexivity.
          -- destruct Hn as [E|[e E]]; discriminate.
        * destruct Hn as [E|[e E]]; inversion E; subst; reflexivity.
        * destruct Hn as [E|[e E]]; discriminate.
      + destruct Hn as [E|[e E]]; inversion E; subst; reflexivity.
      + destruct Hn as [E|[e E]]; discriminate. }
  unfold next, ZipGenerator_next, zip_next. rewrite C. reflexivity.
Qed.

Lemma Settles_map {It T U : Type} `{Iterator It T} : Settles (MapGenerator It T U) U.
Proof.
  intros fuel g g' Hn fuel'.
  assert (C : map_completed g' = true).
  { unfold next at 1 2, MapGenerator_next in Hn.
    destruct (map_completed g) eqn:Cg.
    - destruct Hn as [E|[e E]]; inversion E; subst; exact Cg.
    - destruct (pullWrapped fuel (map_iterator g)) as [[[[v|]|e1] it']|];
        destruct Hn as [E|[e E]]; inversion E; subst; reflexivity. }
  unfold next, MapGenerator_next. rewrite C. reflexivity.
Qed.

Lemma Settles_smear {It T U V : Type} `{Iterator It T} :
  Settles (SmearGenerator It T U V) V.
Proof.
  intros fuel g g' Hn fuel'.
  assert (C : smear_completed g' = true).
  { unfold next at 1 2, SmearGenerator_next in Hn.
    destruct (smear_completed g) eqn:Cg.
    - destruct Hn as [E|[e E]]; inversion E; subst; exact Cg.
    - destruct (pullWrapped fuel (smear_iterator g)) as [[[[v|]|e1] it']|];
        destruct Hn as [E|[e E]]; inversion E; subst; reflexivity. }
  unfold next, SmearGenerator_next. rewrite C. reflexivity.
Qed.

Lemma reverse_loop_settles {It T : Type} (it : It) (sequence : list T)
      (g' : ReverseGenerator It T) :
  (reverse_loop it sequence = Some (Normal IterDone, g') \/
   exists e, reverse_loop it sequence = Some (Throw e, g')) ->
  reverse_pc g' = ReverseCompleted.
Proof.
  unfold reverse_loop.
  destruct (0 <? List.length sequence)%nat; [destruct (pop sequence) as [[x|] q]|];
    intros [E|[e E]]; inversion E; subst; reflexivity.
Qed.

Lemma Settles_reverse {It T : Type} `{Iterator It T} :
  Settles (ReverseGenerator It T) T.
Proof.
  intros fuel g g' Hn fuel'.
  assert (C : reverse_pc g' = ReverseCompleted).
  { unfold next at 1 2, ReverseGenerator_next in Hn.
    destruct (reverse_pc g) eqn:Pg.
    - destruct (spread fuel (reverse_iterator g)) as [[[sequence|e1] it']|].
      + apply (reverse_loop_settles _ _ Hn).
      + destruct Hn as [E|[e E]]; inversion E; subst; reflexivity.
      + destruct Hn as [E|[e E]]; discriminate.
    - apply (reverse_loop_settles _ _ Hn).
    - destruct Hn as [E|[e E]]; inversion E; subst; exact Pg. }
  unfold next, ReverseGenerator_next. destruct g' as [it pc]. simpl in C.
  subst pc. reflexivity.
Qed.

Lemma range_test_settles (g g' : RangeGenerator) (i : Z) :
  (range_test g i = Some (Normal IterDone, g') \/
   exists e, range_test g i = Some (Throw e, g')) ->
  range_pc g' = RangeCompleted.
Proof.
  unfold range_test.
  destruct (continuePredicate (range_stepSize g >? 0) i (range_stop g));
    [|destruct (range_stopIncluded g)];
    intros [E|[e E]]; inversion E; subst; reflexivity.
Qed.

Lemma Settles_range : Settles RangeGenerator Z.
Proof.
  intros fuel g g' Hn fuel'.
  assert (C : range_pc g' = RangeCompleted).
  { unfold next, RangeGenerator_next in Hn. destruct (range_pc g) eqn:Pg.
    - apply (range_test_settles _ _ Hn).
    - apply (range_test_settles _ _ Hn).
    - destruct Hn as [E|[e E]]; inversion E; subst; reflexivity.
    - destruct Hn as [E|[e E]]; inversion E; subst; exact Pg. }
  unfold next, RangeGenerator_next. rewrite C. reflexivity.
Qed.

Lemma Settles_repeat {T : Type} : Settles (RepeatGenerator T) T.
Proof.
  intros fuel g g' Hn fuel'.
  assert (C : repeat_completed g' = true).
  { unfold next at 1 2, RepeatGenerator_next in Hn.
    destruct (repeat_completed g) eqn:Cg.
    - destruct Hn as [E|[e E]]; inversion E; subst; exact Cg.
    - destruct (next fuel (repeat_range g)) as [[[[v|]|e1] r']|];
        destruct Hn as [E|[e E]]; inversion E; subst; reflexivity. }
  unfold next at 1, RepeatGenerator_next. rewrite C. reflexivity.
Qed.

(** X9: no generator of the library resumes after its end.  For [zip],
    [map], [smear], [reverse], [range] and [repeat], over any sources: once
    a pull has reported exhaustion or thrown, every later pull reports
    exhaustion and changes nothing; in particular the sources are not pulled
    again, even if they could give values again. *)
Theorem generators_stay_ended {It T U V : Type} `{Iterator It T} :
  Settles (ZipGenerator It) (list T) /\
  Settles (MapGenerator It T U) U /\
  Settles (SmearGenerator It T U V) V /\
  Settles (ReverseGenerator It T) T /\
  Settles RangeGenerator Z /\
  Settles (RepeatGenerator T) T.
Proof.
  split; [apply Settles_zip|]. split; [apply Settles_map|].
  split; [apply Settles_smear|]. split; [apply Settles_reverse|].
  split; [apply Settles_range | apply Settles_repeat].
Qed.

(** ** [PeekableIterator] over a finite source *)

Section PeekableFinite.

Context {It T : Type} `{Iterator It T}.

Lemma Returns_peekable_next (s : It) (b r : IteratorResult T) (s1 : It) :
  Returns (fun fuel => next fuel s) r s1 ->
  Returns (fun fuel => next fuel (mkPeekable s b)) b (mkPeekable s1 r).
Proof.
  intros [f0 R]. exists f0. intros fuel L.
  change (next fuel (mkPeekable s b)) with (peekable_next fuel (mkPeekable s b)).
  unfold peekable_next. simpl. rewrite (R fuel L). reflexivity.
Qed.

(** A wrapper that buffers [v] over a source that still gives [l] gives
    [v] and then [l], and has by then pulled the source once more. *)
Lemma Pulls_peekable (s : It) (l : list T) (s1 : It) :
  Pulls s l s1 ->
  forall (v : T) (r : IteratorResult T) (s2 : It),
    Returns (fun fuel => next fuel s1) r s2 ->
    Pulls (mkPeekable s (IterValue v)) (v :: l) (mkPeekable s2 r).
Proof.
  induction 1 as [s|s w sa l s1 R P IH]; intros v r s2 N.
  - apply Pulls_one. apply Returns_peekable_next. exact N.
  - eapply Pulls_cons.
    + apply Returns_peekable_next. exact R.
    + apply IH. exact N.
Qed.

End PeekableFinite.

(** X10: over a finite source that gives the elements [l], a
    [PeekableIterator] can be built, [peek()] then shows the first element
    (or exhaustion if there is none), and the wrapper gives exactly [l] and
    reports exhaustion.  By then it has pulled the source once more after
    the source's own exhaustion, and buffers the result [r] of that pull. *)
Theorem peekable_finite_source {It T : Type} `{Iterator It T}
    (s : It) (l : list T) (s1 : It) (r : IteratorResult T) (s2 : It) :
  Drains s l s1 ->
  Returns (fun fuel => next fuel s1) r s2 ->
  exists p,
    Returns (fun fuel => newPeekableIterator fuel s) p (_iterator p) /\
    fst (peek p) = match l with
                   | [] => IterDone
                   | v :: _ => IterValue v
                   end /\
    Drains p l (mkPeekable s2 r) /\
    Returns (fun fuel => spread fuel p) l (mkPeekable s2 r).
Proof.
  intros [s0 [P [f0 D]]] N.
  assert (G : exists p,
             Returns (fun fuel => newPeekableIterator fuel s) p (_iterator p) /\
             fst (peek p) = match l with
                            | [] => IterDone
                            | v :: _ => IterValue v
                            end /\
             Drains p l (mkPeekable s2 r)).
  { inversion P as [|? v sa l' ? [f1 R] P']; subst.
    - exists (mkPeekable s1 IterDone). split; [|split].
      + exists f0. intros fuel L. unfold newPeekableIterator.
        rewrite (D fuel L). reflexivity.
      + reflexivity.
      + exists (mkPeekable s1 IterDone). split; [constructor|].
        apply Returns_peekable_next. exact N.
    - exists (mkPeekable sa (IterValue v)). split; [|split].
      + exists f1. intros fuel L. unfold newPeekableIterator.
        rewrite (R fuel L). reflexivity.
      + reflexivity.
      + exists (mkPeekable s1 IterDone). split.
        * apply (Pulls_peekable P'). exists f0. exact D.
        * apply Returns_peekable_next. exact N. }
  destruct G as [p [G1 [G2 G3]]]. exists p.
  split; [exact G1|]. split; [exact G2|]. split; [exact G3|].
  apply spread_Drains. exact G3.
Qed.

Lemma peekable_finite_source_witness :
  Drains (values [1; 2; 3]) [1; 2; 3] (mkArrayIterator [1; 2; 3] 3) /\
  Returns (fun fuel => next fuel (mkArrayIterator [1; 2; 3] 3)) IterDone
          (mkArrayIterator [1; 2; 3] 3) /\
  exists p,
    Returns (fun fuel => newPeekableIterator fuel (values [1; 2; 3])) p (_iterator p) /\
    fst (peek p) = IterValue 1 /\
    Drains p [1; 2; 3] (mkPeekable (mkArrayIterator [1; 2; 3] 3) IterDone) /\
    Returns (fun fuel => spread fuel p) [1; 2; 3]
            (mkPeekable (mkArrayIterator [1; 2; 3] 3) IterDone).
Proof.
  assert (N : Returns (fun fuel => next fuel (mkArrayIterator [1; 2; 3] 3))
                      (@IterDone Z) (mkArrayIterator [1; 2; 3] 3)).
  { exists O. intros fuel _. reflexivity. }
  split; [apply (Drains_values [1; 2; 3])|]. split; [exact N|].
  apply (peekable_finite_source (Drains_values [1; 2; 3]) N).
Defined.

(** ** [reverse] is eager *)

(** X11: the first pull of [reverse] drains its source completely: over a
    finite source that gives [l] it returns the last element of [l] (or
    reports exhaustion if [l] is empty) and leaves the source exhausted;
    the later pulls give the remaining elements back to front and never
    touch the source. *)
Theorem reverse_first_pull_drains {It T : Type} `{Iterator It T}
    (s : It) (l : list T) (s1 : It) :
  Drains s l s1 ->
  (l = [] ->
   Returns (fun fuel => next fuel (reverse s)) IterDone
           (mkReverse s1 ReverseCompleted)) /\
  (forall front x, l = front ++ [x] ->
   Returns (fun fuel => next fuel (reverse s)) (IterValue x)
           (mkReverse s1 (ReverseYielded front)) /\
   Drains (mkReverse s1 (ReverseYielded front)) (List.rev front)
          (mkReverse s1 ReverseCompleted)).
Proof.
  intros D. apply spread_Drains in D. destruct D as [f0 D]. split.
  - intros E. subst l. exists f0. intros fuel L.
    unfold next at 1, ReverseGenerator_next. simpl. rewrite (D fuel L). reflexivity.
  - intros front x E. subst l. split.
    + exists f0. intros fuel L.
      unfold next at 1, ReverseGenerator_next. simpl. rewrite (D fuel L).
      apply reverse_loop_snoc.
    + exists (mkReverse s1 (ReverseYielded [])). split.
      * apply Pulls_reverse_yielded.
      * exists O. intros fuel _. reflexivity.
Qed.

Lemma reverse_first_pull_drains_witness :
  Drains (values [1; 2; 3]) [1; 2; 3] (mkArrayIterator [1; 2; 3] 3) /\
  Returns (fun fuel => next fuel (reverse (values [1; 2; 3]))) (IterValue 3)
          (mkReverse (mkArrayIterator [1; 2; 3] 3) (ReverseYielded [1; 2])).
Proof.
  split; [apply (Drains_values [1; 2; 3])|].
  apply (proj2 (reverse_first_pull_drains (Drains_values [1; 2; 3])) [1; 2] 3).
  reflexivity.
Defined.

(** X12: if draining the source does not return, no pull of [reverse] over
    it returns: not even its first element is ever given. *)
Theorem reverse_of_endless_source {It T : Type} `{Iterator It T} (s : It) :
  Diverges (fun fuel => spread fuel s) ->
  Diverges (fun fuel => next fuel (reverse s)) /\
  Diverges (fun fuel => spread fuel (reverse s)).
Proof.
  intros D.
  assert (N : Diverges (fun fuel => next fuel (reverse s))).
  { intros fuel. unfold next at 1, ReverseGenerator_next. simpl.
    rewrite (D fuel). reflexivity. }
  split; [exact N|].
  intros [|fuel]; [reflexivity|]. simpl. rewrite pullWrapped_next, (N fuel).
  reflexivity.
Qed.

Lemma Diverges_spread_range_5_0_0 :
  Diverges (fun fuel => spread fuel (range 5 0 0 false)).
Proof.
  apply (spread_Diverges
           (fun s => exists pc, (pc = RangeStart \/ pc = RangeYieldedI 5) /\
                                s = range_at (range 5 0 0 false) pc)).
  - intros s fuel [pc [P E]]. subst s. right. exists 5.
    exists (range_at (range 5 0 0 false) (RangeYieldedI 5)). split.
    + apply next_range_zero_step; [lia | exact P].
    + exists (RangeYieldedI 5). auto.
  - exists RangeStart. auto.
Qed.

Lemma reverse_of_endless_source_witness :
  Diverges (fun fuel => spread fuel (range 5 0 0 false)) /\
  Diverges (fun fuel => next fuel (reverse (range 5 0 0 false))).
Proof.
  split; [exact Diverges_spread_range_5_0_0|].
  apply (proj1 (reverse_of_endless_source _ Diverges_spread_range_5_0_0)).
Defined.

(** ** Laziness and composition *)

(** X13: [map] is lazy and composes.  On any source, finite or not: when
    the source gives [l] on its first pulls, [map] gives the images of [l]
    on as many pulls and has pulled the source exactly that often; and
    mapping twice gives the images under the composed functor. *)
Theorem map_lazy_and_fuses {It T U V : Type} `{Iterator It T}
    (f : T -> U) (g : U -> V) (s : It) (l : list T) (s1 : It) :
  Pulls s l s1 ->
  Pulls (map s f) (List.map f l) (mkMap s1 f false) /\
  Pulls (map (map s f) g) (List.map (fun x => g (f x)) l)
        (mkMap (mkMap s1 f false) g false).
Proof.
  intros P. split.
  - apply Pulls_map. exact P.
  - rewrite <- map_map. apply Pulls_map. apply Pulls_map. exact P.
Qed.

(** On the endless sequence [5, 5, ...]. *)
Lemma map_lazy_and_fuses_witness :
  Pulls (range 5 0 0 false) [5; 5]
        (range_at (range 5 0 0 false) (RangeYieldedI 5)) /\
  Pulls (map (map (range 5 0 0 false) (fun x => x + 1)) (fun x => x * 2)) [12; 12]
        (mkMap (mkMap (range_at (range 5 0 0 false) (RangeYieldedI 5))
                      (fun x => x + 1) false)
               (fun x => x * 2) false).
Proof.
  assert (P : Pulls (range 5 0 0 false) [5; 5]
                    (range_at (range 5 0 0 false) (RangeYieldedI 5))).
  { eapply Pulls_cons; [exists O; intros fuel _; reflexivity|].
    eapply Pulls_cons; [exists O; intros fuel _; reflexivity|]. constructor. }
  split; [exact P|].
  apply (proj2 (map_lazy_and_fuses (fun x => x + 1) (fun x => x * 2) P)).
Defined.

Lemma smearOutputs_length {T U V : Type} (functor : U -> T -> SmearResult U V)
      (l : list T) :
  forall givenOn, List.length (fst (smearOutputs functor givenOn l)) = List.length l.
Proof.
  induction l as [|x l IH]; intros givenOn; simpl; [reflexivity|].
  specialize (IH (giveOn (functor givenOn x))).
  destruct (smearOutputs functor (giveOn (functor givenOn x)) l). simpl in *.
  rewrite IH. reflexivity.
Qed.

Lemma smearOutputs_app {T U V : Type} (functor : U -> T -> SmearResult U V)
      (l1 l2 : list T) :
  forall givenOn,
    fst (smearOutputs functor givenOn (l1 ++ l2))
    = fst (smearOutputs functor givenOn l1)
      ++ fst (smearOutputs functor (snd (smearOutputs functor givenOn l1)) l2).
Proof.
  induction l1 as [|x l1 IH]; intros givenOn; simpl; [reflexivity|].
  specialize (IH (giveOn (functor givenOn x))).
  destruct (smearOutputs functor (giveOn (functor givenOn x)) (l1 ++ l2)).
  destruct (smearOutputs functor (giveOn (functor givenOn x)) l1).
  simpl in *. rewrite IH. reflexivity.
Qed.

Lemma smearOutputs_constant {T U V : Type} (f : T -> V) (l : list T) (givenOn : U) :
  smearOutputs (fun u e => {| giveOn := u; yield := f e |}) givenOn l
  = (List.map f l, givenOn).
Proof.
  induction l as [|x l IH]; simpl; [reflexivity|]. rewrite IH. reflexivity.
Qed.

(** X14: [smear] is lazy and causal.  On any source, finite or not: when
    the source gives [l] on its first pulls, [smear] gives one output per
    element on as many pulls, has pulled the source exactly that often, and
    carries the value that the functor handed on last; the outputs for a
    prefix of the elements do not depend on the elements after it. *)
Theorem smear_lazy_and_causal {It T U V : Type} `{Iterator It T}
    (functor : U -> T -> SmearResult U V) (initialValue : U)
    (s : It) (l : list T) (s1 : It) :
  Pulls s l s1 ->
  Pulls (smear s functor initialValue)
        (fst (smearOutputs functor initialValue l))
        (mkSmear s1 functor (snd (smearOutputs functor initialValue l)) false) /\
  List.length (fst (smearOutputs functor initialValue l)) = List.length l /\
  (forall l1 l2, l = l1 ++ l2 ->
     firstn (List.length l1) (fst (smearOutputs functor initialValue l))
     = fst (smearOutputs functor initialValue l1)).
Proof.
  intros P. split; [|split].
  - apply (Pulls_smear functor P).
  - apply smearOutputs_length.
  - intros l1 l2 E. subst l. rewrite smearOutputs_app.
    rewrite <- (smearOutputs_length functor l1 initialValue) at 1.
    rewrite firstn_app, Nat.sub_diag, firstn_all. simpl. apply app_nil_r.
Qed.

Lemma smear_lazy_and_causal_witness :
  Pulls (values [1; 2; 3; 4]) [1; 2] (mkArrayIterator [1; 2; 3; 4] 2) /\
  Pulls (smear (values [1; 2; 3; 4]) sumFunctor 0) [1; 3]
        (mkSmear (mkArrayIterator [1; 2; 3; 4] 2) sumFunctor 3 false).
Proof.
  split.
  - apply (Pulls_values_prefix [1; 2] [3; 4]).
  - apply (proj1 (smear_lazy_and_causal sumFunctor 0
                    (Pulls_values_prefix [1; 2] [3; 4]))).
Defined.

(** X15: [smear] with a functor that hands the carried value on unchanged
    and yields [f element] gives the same sequence as [map] with [f]. *)
Theorem smear_generalises_map {It T U V : Type} `{Iterator It T}
    (f : T -> V) (initialValue : U) (s : It) (l : list T) (s1 : It) :
  Drains s l s1 ->
  Returns (fun fuel =>
             spread fuel (smear s (fun u e => {| giveOn := u; yield := f e |})
                                initialValue))
          (List.map f l)
          (mkSmear s1 (fun u e => {| giveOn := u; yield := f e |}) initialValue true) /\
  Returns (fun fuel => spread fuel (map s f)) (List.map f l) (mkMap s1 f true).
Proof.
  intros D. split.
  - pose proof (Drains_smear (fun (u : U) e => {| giveOn := u; yield := f e |})
                             initialValue D) as DS.
    rewrite smearOutputs_constant in DS. simpl in DS.
    apply spread_Drains. exact DS.
  - apply spread_Drains. apply Drains_map. exact D.
Qed.

Lemma smear_generalises_map_witness :
  Drains (values [1; 2; 3]) [1; 2; 3] (mkArrayIterator [1; 2; 3] 3) /\
  Returns (fun fuel =>
             spread fuel (smear (values [1; 2; 3])
                                (fun (u : bool) e => {| giveOn := u; yield := e * e |})
                                true))
          [1; 4; 9]
          (mkSmear (mkArrayIterator [1; 2; 3] 3)
                   (fun (u : bool) e => {| giveOn := u; yield := e * e |}) true true).
Proof.
  split; [apply (Drains_values [1; 2; 3])|].
  apply (proj1 (smear_generalises_map (fun e => e * e) true
                  (Drains_values [1; 2; 3]))).
Defined.

(** X16: [reverse] and [map] commute on finite sources: reversing the
    mapped sequence and mapping the reversed sequence both give the images
    of the elements back to front. *)
Theorem reverse_map_commute {It T U : Type} `{Iterator It T}
    (f : T -> U) (s : It) (l : list T) (s1 : It) :
  Drains s l s1 ->
  Returns (fun fuel => spread fuel (reverse (map s f))) (List.map f (List.rev l))
          (mkReverse (mkMap s1 f true) ReverseCompleted) /\
  Returns (fun fuel => spread fuel (map (reverse s) f)) (List.map f (List.rev l))
          (mkMap (mkReverse s1 ReverseCompleted) f true).
Proof.
  intros D. split.
  - rewrite map_rev. apply spread_Drains, Drains_reverse, Drains_map. exact D.
  - apply spread_Drains, Drains_map, Drains_reverse. exact D.
Qed.

Lemma reverse_map_commute_witness :
  Drains (values [1; 2; 3]) [1; 2; 3] (mkArrayIterator [1; 2; 3] 3) /\
  Returns (fun fuel => spread fuel (reverse (map (values [1; 2; 3]) (fun e => e * 10))))
          [30; 20; 10]
          (mkReverse (mkMap (mkArrayIterator [1; 2; 3] 3) (fun e => e * 10) true)
                     ReverseCompleted).
Proof.
  split; [apply (Drains_values [1; 2; 3])|].
  apply (proj1 (reverse_map_commute (fun e => e * 10) (Drains_values [1; 2; 3]))).
Defined.

(** ** The chaining object *)

Section FacadeFacts.

Context {It T : Type} `{Iterator It T}.

Lemma Returns_object_next (s : It) (r : IteratorResult T) (s1 : It) :
  Returns (fun fuel => next fuel s) r s1 ->
  Returns (fun fuel => next fuel (IteratorObject.mk s)) r (IteratorObject.mk s1).
Proof.
  intros [f0 R]. exists f0. intros fuel L.
  unfold next at 1, IteratorObject.IteratorObject_next. simpl.
  rewrite (R fuel L). reflexivity.
Qed.

Lemma Pulls_object (s : It) (l : list T) (s1 : It) :
  Pulls s l s1 -> Pulls (IteratorObject.mk s) l (IteratorObject.mk s1).
Proof.
  induction 1 as [s|s v sa l s1 R P IH]; [constructor|].
  eapply Pulls_cons; [apply Returns_object_next; exact R | exact IH].
Qed.

Lemma Drains_object (s : It) (l : list T) (s1 : It) :
  Drains s l s1 -> Drains (IteratorObject.mk s) l (IteratorObject.mk s1).
Proof.
  intros [s0 [P D]]. exists (IteratorObject.mk s0). split.
  - apply Pulls_object. exact P.
  - apply Returns_object_next. exact D.
Qed.

Lemma Returns_onIterator {A : Type} (run : nat -> Run It A) (a : A) (s1 : It) :
  Returns run a s1 ->
  Returns (fun fuel => IteratorObject.onIterator (run fuel)) a (IteratorObject.mk s1).
Proof.
  intros [f0 R]. exists f0. intros fuel L. rewrite (R fuel L). reflexivity.
Qed.

End FacadeFacts.

(** X17: the chaining object adds nothing to the functions it wraps.  Over
    a finite source that gives [l]: the object is itself an iterator that
    gives [l]; [object.map(f).reverse().spread()] returns the images of [l]
    back to front; [object.reduce] with a functor that does not break
    returns the left fold; and [object.checkAllFulfill(p)] returns whether
    all elements of [l] satisfy [p]. *)
Theorem facade_delegates {It T U : Type} `{Iterator It T}
    (f : T -> U) (step : U -> T -> U) (initialValue : U) (predicate : T -> bool)
    (s : It) (l : list T) (s1 : It) :
  Drains s l s1 ->
  Drains (IteratorObject.mk s) l (IteratorObject.mk s1) /\
  Returns (fun fuel =>
             IteratorObject.spread fuel
               (IteratorObject.reverse
                  (IteratorObject.map (IteratorObject.mk s) f)))
          (List.rev (List.map f l))
          (IteratorObject.mk (mkReverse (mkMap s1 f true) ReverseCompleted)) /\
  Returns (fun fuel =>
             IteratorObject.reduce fuel (IteratorObject.mk s)
               (fun acc e => (step acc e, false)) initialValue)
          (fold_left step l initialValue) (IteratorObject.mk s1) /\
  exists final,
    Returns (fun fuel =>
               IteratorObject.checkAllFulfill fuel (IteratorObject.mk s) predicate)
            (forallb predicate l) (IteratorObject.mk final).
Proof.
  intros D. split; [|split; [|split]].
  - apply Drains_object. exact D.
  - unfold IteratorObject.spread, IteratorObject.reverse, IteratorObject.map. simpl.
    apply Returns_onIterator.
    apply spread_Drains, Drains_reverse, Drains_map. exact D.
  - unfold IteratorObject.reduce. simpl. apply Returns_onIterator.
    destruct (applyOnEachOf_Drains _ D _ (eachOfList_fold step l initialValue))
      as [final [R [NB _]]].
    rewrite <- (NB eq_refl). exact R.
  - destruct (checkAllFulfill_Drains predicate D) as [final [R _]].
    exists final. unfold IteratorObject.checkAllFulfill. simpl.
    apply Returns_onIterator. exact R.
Qed.

Lemma facade_delegates_witness :
  Drains (values [1; 2; 3]) [1; 2; 3] (mkArrayIterator [1; 2; 3] 3) /\
  Returns (fun fuel =>
             IteratorObject.spread fuel
               (IteratorObject.reverse
                  (IteratorObject.map (IteratorObject.mk (values [1; 2; 3]))
                                      (fun e => e * 10))))
          [30; 20; 10]
          (IteratorObject.mk
             (mkReverse (mkMap (mkArrayIterator [1; 2; 3] 3) (fun e => e * 10) true)
                        ReverseCompleted)).
Proof.
  split; [apply (Drains_values [1; 2; 3])|].
  destruct (facade_delegates (fun e => e * 10) Z.add 0 Z.even
              (Drains_values [1; 2; 3])) as [_ [R _]].
  exact R.
Defined.

(** X18: the two named constructors of the chaining object.  Over arrays
    of equal length [n] (at least one array), [createZipping(...).spread()]
    returns the [n] tuples; over a finite source of integers [l] that are
    safe integers with safe partial sums (so that every addition of the
    code is exact), [createSummingCumulatively(...).spread()] returns the
    running sums of [l]. *)
Theorem facade_constructors {It T : Type} `{Iterator It Z}
    (arrays : list (list T)) (n : nat) (s : It) (l : list Z) (s1 : It) :
  arrays <> [] ->
  (forall a, In a arrays -> List.length a = n) ->
  Drains s l s1 ->
  (forall x, In x l -> isSafeInteger x) ->
  (forall k, isSafeInteger (sumZ (firstn k l))) ->
  Returns (fun fuel =>
             IteratorObject.spread fuel
               (IteratorObject.createZipping (List.map values arrays)))
          (List.map (tupleAt arrays) (seq 0 n))
          (IteratorObject.mk (mkZip (iteratorsAt arrays n) true)) /\
  Returns (fun fuel =>
             IteratorObject.spread fuel (IteratorObject.createSummingCumulatively s))
          (runningSums 0 l)
          (IteratorObject.mk (mkSmear s1 sumFunctor (sumZ l) true)).
Proof.
  intros NE L D SafeElements SafeSums. split.
  - unfold IteratorObject.spread, IteratorObject.createZipping. simpl.
    apply Returns_onIterator. apply spread_Drains.
    apply Drains_zip_arrays; assumption.
  - unfold IteratorObject.spread, IteratorObject.createSummingCumulatively. simpl.
    apply Returns_onIterator. apply spread_Drains.
    pose proof (Drains_smear sumFunctor 0 D) as DS.
    rewrite smearOutputs_sumFunctor in DS. exact DS.
Qed.

Lemma facade_constructors_witness :
  [[1; 2]; [3; 4]] <> [] /\
  (forall a, In a [[1; 2]; [3; 4]] -> List.length a = 2%nat) /\
  Drains (values [1; 2; 3; 4]) [1; 2; 3; 4] (mkArrayIterator [1; 2; 3; 4] 4) /\
  (forall x, In x [1; 2; 3; 4] -> isSafeInteger x) /\
  (forall k, isSafeInteger (sumZ (firstn k [1; 2; 3; 4]))) /\
  Returns (fun fuel =>
             IteratorObject.spread fuel
               (IteratorObject.createZipping [values [1; 2]; values [3; 4]]))
          [[1; 3]; [2; 4]]
          (IteratorObject.mk
             (mkZip [mkArrayIterator [1; 2] 2; mkArrayIterator [3; 4] 2] true)) /\
  Returns (fun fuel =>
             IteratorObject.spread fuel
               (IteratorObject.createSummingCumulatively (values [1; 2; 3; 4])))
          [1; 3; 6; 10]
          (IteratorObject.mk
             (mkSmear (mkArrayIterator [1; 2; 3; 4] 4) sumFunctor 10 true)).
Proof.
  assert (L : forall a, In a [[1; 2]; [3; 4]] -> List.length a = 2%nat).
  { intros a [E|[E|[]]]; subst a; reflexivity. }
  assert (NE : [[1; 2]; [3; 4]] <> []) by discriminate.
  assert (SafeElements : forall x, In x [1; 2; 3; 4] -> isSafeInteger x).
  { intros x [E|[E|[E|[E|[]]]]]; subst x;
      unfold isSafeInteger, MAX_SAFE_INTEGER; lia. }
  assert (SafeSums : forall k, isSafeInteger (sumZ (firstn k [1; 2; 3; 4]))).
  { intros k. do 5 (destruct k as [|k];
      [unfold isSafeInteger, MAX_SAFE_INTEGER, sumZ; simpl; lia|]).
    unfold isSafeInteger, MAX_SAFE_INTEGER, sumZ. simpl. lia. }
  split; [exact NE|]. split; [exact L|].
  split; [apply (Drains_values [1; 2; 3; 4])|].
  split; [exact SafeElements|]. split; [exact SafeSums|].
  apply (@facade_constructors (ArrayIterator Z) Z _ [[1; 2]; [3; 4]] 2
           (values [1; 2; 3; 4]) [1; 2; 3; 4] (mkArrayIterator [1; 2; 3; 4] 4)
           NE L (Drains_values [1; 2; 3; 4]) SafeElements SafeSums).
Defined.

(** ** [reduce] with early break, in general *)

Lemma applyOnEachOf_prefix {It T E : Type} `{Iterator It T}
      (functor : T -> E -> E * bool) (s : It) (l1 : list T) (s0 : It)
      (x : T) (s1 : It) :
  Pulls s l1 s0 ->
  Returns (fun fuel => next fuel s0) (IterValue x) s1 ->
  forall (env env1 env2 : E),
    eachOfList functor l1 env = (env1, l1, false) ->
    functor x env1 = (env2, true) ->
    Returns (fun fuel => applyOnEachOf fuel s functor env) env2 s1.
Proof.
  intros P [f0 R].
  induction P as [s|s v sa l s0 [f1 R1] P IH]; intros env env1 env2 EQ F.
  - simpl in EQ. inversion EQ; subst.
    exists (S f0). intros fuel L. destruct fuel as [|k]; [lia|]. simpl.
    rewrite pullWrapped_next, (R k), F by lia. reflexivity.
  - simpl in EQ. destruct (functor v env) as [enva brk] eqn:Fv. destruct brk.
    + inversion EQ.
    + destruct (eachOfList functor l enva) as [[e1 p1] b1] eqn:RL.
      inversion EQ; subst.
      destruct (IH R _ _ _ RL F) as [f2 R2].
      exists (S (Nat.max f1 f2)). intros fuel L. destruct fuel as [|k]; [lia|].
      simpl. rewrite pullWrapped_next, (R1 k), Fv by lia. apply R2. lia.
Qed.

(** X19: early break of [reduce] on any iterator, finite or not.  If the
    functor does not invoke the break callback on the first elements [l1]
    and invokes it on the next element [x], then [reduce] returns what the
    functor returned for [x], and the iterator is left right after [x]:
    [x] has been pulled, and nothing after it. *)
Theorem reduce_early_break {It T U : Type} `{Iterator It T}
    (functor : U -> T -> U * bool) (initialValue : U)
    (s : It) (l1 : list T) (x : T) (s1 : It) (acc : U) :
  Pulls s (l1 ++ [x]) s1 ->
  eachOfList (fun element accumulator => functor accumulator element) l1 initialValue
  = (acc, l1, false) ->
  snd (functor acc x) = true ->
  Returns (fun fuel => reduce fuel s functor initialValue) (fst (functor acc x)) s1.
Proof.
  intros P EQ B. apply Pulls_split in P. destruct P as [s0 [P0 P1]].
  inversion P1 as [|? ? sa ? ? R Pn]; subst. inversion Pn; subst.
  unfold reduce.
  apply (applyOnEachOf_prefix (fun element accumulator => functor accumulator element)
                              P0 R _ EQ).
  destruct (functor acc x) as [u b]. simpl in *. subst b. reflexivity.
Qed.

(** The scenario of the specification: the break is requested at [4], after
    [1, 2, 3] were summed. *)
Lemma reduce_early_break_witness :
  Pulls (values [1; 2; 3; 4; 5]) ([1; 2; 3] ++ [4])
        (mkArrayIterator [1; 2; 3; 4; 5] 4) /\
  Returns (fun fuel => reduce fuel (values [1; 2; 3; 4; 5]) sumWhileAtMost3 0)
          6 (mkArrayIterator [1; 2; 3; 4; 5] 4).
Proof.
  split.
  - apply (Pulls_values_prefix [1; 2; 3; 4] [5]).
  - apply (@reduce_early_break (ArrayIterator Z) Z Z _ sumWhileAtMost3 0
             (values [1; 2; 3; 4; 5]) [1; 2; 3] 4
             (mkArrayIterator [1; 2; 3; 4; 5] 4) 6
             (Pulls_values_prefix [1; 2; 3; 4] [5])).
    + reflexivity.
    + reflexivity.
Defined.
